(** * Job recommendation ranking: a model of [src/lib/recommendations.ts]

    The development embeds the functions of [recommendations.ts] as Rocq
    functions and proves the properties its specification states about
    them.

    Conventions of the embedding.
    - A JavaScript [number] is an exact rational ([Q]).  Every value the
      ranking code compares is a finite number, and finite doubles are
      rationals; the rounding of [+] and [*] is not modelled, and
      [cosineSimilarity] returns a number or throws, never [NaN].
    - The [topN] argument is an integer ([Z]).  [slice] truncates a
      fractional end index toward zero and reads [NaN] as 0; neither is
      modelled, and the statements about [topN] are about integers.
    - The [results] object of the bulk ranking is a finite map keyed by
      strings.  A plain object does not store the key [__proto__] as a
      property of its own; a statement about the set of keys excludes it.
    - A JavaScript string is a [string] of 8-bit characters; the Unicode
      parts of [toLowerCase], [\s] and [trim] are restricted to ASCII.
    - Untyped data ([any]) is a [value], a JSON tree.
    - [async] code runs in the monad [M]: it may throw, and it records
      the calls it makes to the storage backend and to the embedding
      service. *)

From Stdlib Require Import Ascii String QArith Qminmax Lqa.
From stdpp Require Import gmap strings list sorting fin_maps pretty.

Close Scope Q_scope.
#[local] Set Warnings "-register-all".

(** ** JavaScript built-ins used by the module *)

Module JS.

(** [\s] on ASCII: TAB, LF, VT, FF, CR and SPACE. *)
Definition isWhiteSpace (c : ascii) : bool :=
  let n := nat_of_ascii c in
  (n =? 9)%nat || (n =? 10)%nat || (n =? 11)%nat || (n =? 12)%nat
  || (n =? 13)%nat || (n =? 32)%nat.

Definition isComma (c : ascii) : bool := (nat_of_ascii c =? 44)%nat.
Definition isSemicolon (c : ascii) : bool := (nat_of_ascii c =? 59)%nat.

Definition lowerChar (c : ascii) : ascii :=
  let n := nat_of_ascii c in
  if (65 <=? n)%nat && (n <=? 90)%nat then ascii_of_nat (n + 32) else c.

(** [String.prototype.toLowerCase] *)
Fixpoint toLowerCase (s : string) : string :=
  match s with
  | EmptyString => EmptyString
  | String c s' => String (lowerChar c) (toLowerCase s')
  end.

(** Truthiness of a string: every string but the empty one. *)
Definition truthyStr (s : string) : bool :=
  match s with EmptyString => false | String _ _ => true end.

(** [Array.prototype.join] on an array of strings. *)
Fixpoint join (sep : string) (l : list string) : string :=
  match l with
  | [] => ""
  | [x] => x
  | x :: l' => x +:+ sep +:+ join sep l'
  end.

(** [s.split(/[...]+/)] for a character class [sep]: the pieces between
    maximal runs of separators, with an empty piece in front when [s]
    starts with a separator and at the end when it ends with one.
    [cur] is the piece being read, [inRun] tells that the previous
    character was a separator. *)
Fixpoint splitRunsGo (sep : ascii → bool) (cur : string) (inRun : bool)
    (s : string) : list string :=
  match s with
  | EmptyString => [cur]
  | String c s' =>
      if sep c then
        if inRun then splitRunsGo sep "" true s'
        else cur :: splitRunsGo sep "" true s'
      else splitRunsGo sep (cur +:+ String c "") false s'
  end.

Definition splitRuns (sep : ascii → bool) (s : string) : list string :=
  splitRunsGo sep "" false s.

(** [hay.includes(needle)] *)
Fixpoint includes (hay needle : string) : bool :=
  if String.prefix needle hay then true
  else match hay with
       | EmptyString => false
       | String _ hay' => includes hay' needle
       end.

Fixpoint trimStart (s : string) : string :=
  match s with
  | EmptyString => EmptyString
  | String c s' => if isWhiteSpace c then trimStart s' else s
  end.

Definition trimEnd (s : string) : string :=
  String.rev (trimStart (String.rev s)).

(** [String.prototype.trim] *)
Definition trim (s : string) : string := trimEnd (trimStart s).

(** [arr.slice(0, e)] for an integer [e]: a negative [e] counts from
    the end of the array. *)
Definition slice0 {A} (l : list A) (e : Z) : list A :=
  let len := Z.of_nat (length l) in
  let final := if (e <? 0)%Z then Z.max (len + e) 0 else Z.min e len in
  take (Z.to_nat final) l.

(** [Array.prototype.sort(cmp)].  The standard leaves the algorithm
    open but requires the result to be sorted and stable when [cmp] is
    a consistent comparator, which determines the result; the model is
    the stable insertion sort.  [x] moves past the elements [y] of the
    sorted tail with [cmp x y > 0] and stops before the first [y] with
    [cmp x y <= 0]; since [x] stood before [y] in the array, ties keep
    their order. *)
Fixpoint insertBy {A} (cmp : A → A → Q) (x : A) (l : list A) : list A :=
  match l with
  | [] => [x]
  | y :: l' =>
      if Qle_bool (cmp x y) 0 then x :: y :: l'
      else y :: insertBy cmp x l'
  end.

Definition sort {A} (cmp : A → A → Q) (l : list A) : list A :=
  foldr (insertBy cmp) [] l.

End JS.

(** ** Untyped data *)

(** A JSON tree, for the fields the code reads as [any]. *)
Inductive value : Type :=
  | VUndefined
  | VNull
  | VBool (b : bool)
  | VNum (n : Q)
  | VStr (s : string)
  | VArray (items : list value)
  | VObject (fields : list (string * value)).

(** Truthiness ([if (v)], [v && ...], [v || ...]). *)
Definition truthy (v : value) : bool :=
  match v with
  | VUndefined | VNull => false
  | VBool b => b
  | VNum n => negb (Qeq_bool n 0)
  | VStr s => JS.truthyStr s
  | VArray _ | VObject _ => true
  end.

(** [typeof v === 'object'] *)
Definition typeofObject (v : value) : bool :=
  match v with
  | VNull | VArray _ | VObject _ => true
  | _ => false
  end.

Fixpoint lookupField (k : string) (fs : list (string * value)) : value :=
  match fs with
  | [] => VUndefined
  | (k', v) :: fs' => if String.eqb k k' then v else lookupField k fs'
  end.

(** [v?.k]: [undefined] on [null] and [undefined]; a primitive or an
    array has no own property of the names read here. *)
Definition optGet (v : value) (k : string) : value :=
  match v with
  | VObject fs => lookupField k fs
  | _ => VUndefined
  end.

(** ** Computations that throw and call collaborators *)

(** A thrown value. *)
Definition Error : Type := string.

(** What a ranking call does that can be observed from outside: the
    queries it sends to the storage backend, the batches it sends to the
    embedding service, and each entry into a [catch] clause. *)
Inductive Event : Type :=
  | QueryProfiles
  | QueryProfile (userId : string)
  | QueryJobs
  | QueryJobPosts
  | EmbedTexts (texts : list string)
  | Caught (err : Error).

Record M (A : Type) : Type := MkM {
  trace : list Event;
  outcome : Error + A
}.
Arguments MkM {A} _ _.
Arguments trace {A} _.
Arguments outcome {A} _.

#[global] Instance M_ret : MRet M := λ A a, MkM [] (inr a).

#[global] Instance M_bind : MBind M := λ A B f m,
  match outcome m with
  | inl e => MkM (trace m) (inl e)
  | inr a => MkM (trace m ++ trace (f a)) (outcome (f a))
  end.

Definition throw {A} (e : Error) : M A := MkM [] (inl e).

(** [try { m } catch (err) { h err }] *)
Definition tryCatch {A} (m : M A) (h : Error → M A) : M A :=
  match outcome m with
  | inr _ => m
  | inl e => MkM (trace m ++ Caught e :: trace (h e)) (outcome (h e))
  end.

(** [await Promise.all([m1, m2])]: both calls are issued before either
    is awaited, and the whole fails when one of them does.  When both
    fail the rejection that arrives first wins; the model takes the one
    of [m1]. *)
Definition promiseAll2 {A B} (m1 : M A) (m2 : M B) : M (A * B) :=
  MkM (trace m1 ++ trace m2)
      match outcome m1, outcome m2 with
      | inr a, inr b => inr (a, b)
      | inl e, _ => inl e
      | inr _, inl e => inl e
      end.

Definition isErr {A} (r : Error + A) : Prop :=
  match r with inl _ => True | inr _ => False end.

(** ** Rows *)

(** [string | string[] | null | undefined], the parameter type of the two
    profile normalizers. *)
Inductive TextField : Type :=
  | TFString (s : string)
  | TFArray (items : list string)
  | TFNull
  | TFUndefined.

(** [UserProfile]; [profile_id] is its field [id]. *)
Record UserProfile : Type := {
  profile_id : string;
  skills : TextField;
  (** [None] is [null] or an absent field. *)
  accessibility_needs : option (list string)
}.

(** [JobRow]; [job_id] is its field [id].  A text field that is [null]
    or absent is [None];
    [accessibility_features] is the column the code probes at run time
    through [job as any]. *)
Record JobRow : Type := {
  job_id : string;
  title : option string;
  description : option string;
  content : option string;
  job_metadata : value;
  accessibility_features : value
}.

(** ** Text normalizers *)

Definition skillsToText (skills : TextField) : string :=
  match skills with
  | TFArray items => JS.join " " (List.filter JS.truthyStr items)
  | TFString s => s
  | TFNull | TFUndefined => ""
  end.

Definition accessibilityNeedsToText (needs : TextField) : string :=
  match needs with
  | TFArray items => JS.join " " (List.filter JS.truthyStr items)
  | TFString s => s
  | TFNull | TFUndefined => ""
  end.

(** [Object.entries(v)]: a TypeError on [undefined] and [null]; the
    fields of an object, the indexed items of an array, the indexed
    characters of a string, nothing for the other primitives. *)
Definition objectEntries (v : value) : M (list (string * value)) :=
  match v with
  | VUndefined | VNull => throw "TypeError"
  | VObject fs => mret fs
  | VArray items => mret (imap (λ i x, (pretty i, x)) items)
  | VStr s => mret (imap (λ i c, (pretty i, VStr (String c ""))) (list_ascii_of_string s))
  | VBool _ | VNum _ => mret []
  end.

(** One of the two [if] blocks of [jobAccessibilityToText]: the keys of
    [source] with a truthy value are pushed on [features] when [source]
    is a truthy object. *)
Definition pushTruthyKeys (features : list string) (source : value) : M (list string) :=
  if truthy source && typeofObject source then
    es ← objectEntries source;
    mret (features ++ map fst (List.filter (λ kv, truthy (snd kv)) es))
  else mret features.

(** [jobAccessibilityToText], with the operations that can throw. *)
Definition jobAccessibilityToTextM (job : JobRow) : M string :=
  let meta := if truthy (job_metadata job) then job_metadata job else VObject [] in
  let fromMetadata := optGet meta "accessibility_features" in
  features ← pushTruthyKeys [] fromMetadata;
  let jobTableFeatures := accessibility_features job in
  features ← pushTruthyKeys features jobTableFeatures;
  mret (JS.join " " features).

(** The string [jobAccessibilityToText] returns.  The function never
    throws (lemma [jobAccessibilityToTextM_returns]), so the [inl] case
    is never taken. *)
Definition jobAccessibilityToText (job : JobRow) : string :=
  match outcome (jobAccessibilityToTextM job) with
  | inr text => text
  | inl _ => ""
  end.

(** ** Accessibility compatibility scorer *)

(** The [Set] of lower-cased feature names of a job. *)
Definition enabledFeatures (job : JobRow) : gset string :=
  list_to_set
    (List.filter JS.truthyStr
       (JS.splitRuns JS.isWhiteSpace
          (JS.toLowerCase (jobAccessibilityToText job)))).

(** [enabled.has(x)] *)
Definition has (enabled : gset string) (x : string) : bool :=
  bool_decide (x ∈ enabled).

(** One turn of the loop over [needs]; [matches] is the counter. *)
Definition boostStep (enabled : gset string) (matches : Q) (needRaw : string) : Q :=
  let need := JS.toLowerCase (if JS.truthyStr needRaw then needRaw else "") in
  if negb (JS.truthyStr need) then matches
  else if JS.includes need "visual" then
    if has enabled "screenreadersupport" || has enabled "screen_reader_support"
       || has enabled "assistivetechnology"
    then (matches + 1)%Q else matches
  else if JS.includes need "hearing" then
    if has enabled "signlanguagesupport" then (matches + 1)%Q else matches
  else if JS.includes need "mobility" then
    if has enabled "accessibleoffice" || has enabled "remotework"
    then (matches + 1)%Q else matches
  else if JS.includes need "cognitive" then
    if has enabled "flexiblehours" || has enabled "remotework"
    then (matches + 1)%Q else matches
  else
    if (0 <? size enabled)%nat then (matches + 0.5)%Q else matches.

Definition computeAccessibilityBoost (needs : option (list string)) (job : JobRow) : Q :=
  match needs with
  | None => 0%Q
  | Some needs =>
      if (length needs =? 0)%nat then 0%Q
      else
        let enabled := enabledFeatures job in
        if (size enabled =? 0)%nat then 0%Q
        else
          let matches := fold_left (boostStep enabled) needs 0%Q in
          let boost := Qmin 0.2 (matches * 0.05) in
          boost
  end.


(** ** Collaborators *)

(** The answer of a storage query, [{ data, error }]; [None] is [null]. *)
Record QueryResult (A : Type) : Type := {
  data : option A;
  error : option Error
}.
Arguments data {A} _.
Arguments error {A} _.

(** A row of [from('jobs').select('id, title, description')]. *)
Record JobsRow : Type := {
  jobs_id : string;
  jobs_title : option string;
  jobs_description : option string
}.

(** A row of [from('posts').select('id, title, content, job_metadata')]. *)
Record PostRow : Type := {
  post_id : string;
  post_title : option string;
  post_content : option string;
  post_job_metadata : value
}.

(** The storage backend, as the answers it gives to the four queries of
    the module.  A ranking call sends each query at most once. *)
Record Supabase : Type := {
  (** [from('profiles').select('id, skills, accessibility_needs')] *)
  profilesQuery : QueryResult (list UserProfile);
  (** the same with [.eq('id', userId).maybeSingle()] *)
  profileQuery : string → QueryResult UserProfile;
  (** [from('jobs').select('id, title, description').limit(1000)] *)
  jobsQuery : QueryResult (list JobsRow);
  (** [from('posts').select('id, title, content, job_metadata')
      .eq('is_job_post', true).limit(1000)] *)
  jobPostsQuery : QueryResult (list PostRow)
}.

Definition await {A} (ev : Event) (answer : A) : M A := MkM [ev] (inr answer).

(** A row of the jobs table read as a [JobRow]: it has the three selected
    columns and no other. *)
Definition jobRowOfJobs (r : JobsRow) : JobRow :=
  {| job_id := jobs_id r; title := jobs_title r; description := jobs_description r;
     content := None; job_metadata := VUndefined; accessibility_features := VUndefined |}.

(** [{ id: p.id, title: p.title, content: p.content, job_metadata: p.job_metadata }] *)
Definition jobRowOfPost (p : PostRow) : JobRow :=
  {| job_id := post_id p; title := post_title p; description := None;
     content := post_content p; job_metadata := post_job_metadata p;
     accessibility_features := VUndefined |}.

(** The block "try jobs table first", which [fetchProfilesAndJobs] and
    [computeRecommendationsForUser] both carry: the job list and
    [usedPostsFallback]. *)
Definition loadJobs (supabase : Supabase) : M (list JobRow * bool) :=
  r ← await QueryJobs (jobsQuery supabase);
  match error r, data r with
  | None, Some jobsData => mret (jobRowOfJobs <$> jobsData, false)
  | _, _ =>
      p ← await QueryJobPosts (jobPostsQuery supabase);
      match error p with
      | Some postsError => throw postsError
      | None => mret (jobRowOfPost <$> default [] (data p), true)
      end
  end.

Record Fetched : Type := {
  profiles : list UserProfile;
  jobs : list JobRow;
  usedPostsFallback : bool
}.

Definition fetchProfilesAndJobs (supabase : Supabase) : M Fetched :=
  r ← await QueryProfiles (profilesQuery supabase);
  match error r with
  | Some profilesError => throw profilesError
  | None =>
      '(jobs, usedPostsFallback) ← loadJobs supabase;
      mret {| profiles := default [] (data r); jobs := jobs;
              usedPostsFallback := usedPostsFallback |}
  end.

(** ** Ranking orchestrator *)

(** [a || b] on text fields: [a] unless it is absent, [null] or empty. *)
Definition orElse (a : option string) (b : string) : string :=
  match a with
  | Some s => if JS.truthyStr s then s else b
  | None => b
  end.

(** [profile.accessibility_needs] as the argument of
    [accessibilityNeedsToText]. *)
Definition needsField (needs : option (list string)) : TextField :=
  match needs with Some items => TFArray items | None => TFNull end.

Definition profileText (p : UserProfile) : string :=
  JS.trim (skillsToText (skills p) +:+ " "
           +:+ accessibilityNeedsToText (needsField (accessibility_needs p))).

Definition jobText (j : JobRow) : string :=
  JS.trim (orElse (description j) (orElse (content j) (orElse (title j) ""))
           +:+ " " +:+ jobAccessibilityToText j).

(** [{ jobId, score }]; [jobId] is [None] when [jobIds[jIdx]] is
    [undefined]. *)
Record ScoredCandidate : Type := {
  jobId : option string;
  score : Q
}.

(** [{ job, score }], the entries of the single-user ranking. *)
Record ScoredJob : Type := {
  job : JobRow;
  jobScore : Q
}.

Record BulkRecommendations : Type := {
  bulkResults : gmap string (list ScoredCandidate);
  bulkUsedPostsFallback : bool
}.

Record UserRecommendations : Type := {
  userResults : list ScoredJob;
  userUsedPostsFallback : bool
}.

Definition EmbeddingVector : Type := list Q.

Definition defaultTopN : Z := 5.

Fixpoint foldM {A S} (f : S → A → M S) (s : S) (l : list A) : M S :=
  match l with
  | [] => mret s
  | x :: l' => s' ← f s x; foldM f s' l'
  end.

(** The tokens of the keyword fallback. *)
Definition keywordTokens (profile : UserProfile) : list string :=
  List.filter JS.truthyStr
    (JS.splitRuns (λ c, JS.isWhiteSpace c || JS.isComma c || JS.isSemicolon c)
       (JS.toLowerCase
          (skillsToText (skills profile) +:+ " "
           +:+ accessibilityNeedsToText (needsField (accessibility_needs profile))))).

(** The text of a job in the keyword fallback. *)
Definition keywordText (j : JobRow) : string :=
  JS.toLowerCase
    (orElse (description j) "" +:+ " " +:+ orElse (content j) "" +:+ " "
     +:+ orElse (title j) "" +:+ " " +:+ jobAccessibilityToText j).

Section Ranking.

(** The two functions imported from [./hfEmbeddings], which is not part
    of the sources.  [embedTexts k texts] is the answer to the [k]-th
    batch of a ranking call, a list of vectors or a failure.
    [cosineSimilarity] takes [None] for an [undefined] argument and may
    throw. *)
Variable embedTexts : nat → list string → Error + list EmbeddingVector.
Variable cosineSimilarity :
  option EmbeddingVector → option EmbeddingVector → Error + Q.

Definition callEmbedTexts (k : nat) (texts : list string) : M (list EmbeddingVector) :=
  MkM [EmbedTexts texts] (embedTexts k texts).

Definition callCosineSimilarity (a b : option EmbeddingVector) : M Q :=
  MkM [] (cosineSimilarity a b).

(** The body of the inner loop: the entry pushed on [scores].  Reading
    [accessibility_needs] of a [profiles[pIdx]] that is [undefined]
    throws a TypeError.  For a [jobs[jIdx]] that is [undefined] the
    guards of [jobAccessibilityToText] give the empty text, so that
    [computeAccessibilityBoost] returns 0. *)
Definition bulkScore (profiles : list UserProfile) (jobs : list JobRow)
    (profileEmbeddings jobEmbeddings : list EmbeddingVector)
    (pIdx jIdx : nat) : M ScoredCandidate :=
  let pVec := profileEmbeddings !! pIdx in
  let jVec := jobEmbeddings !! jIdx in
  base ← callCosineSimilarity pVec jVec;
  needs ← match profiles !! pIdx with
          | Some p => mret (accessibility_needs p)
          | None => throw "TypeError"
          end;
  let boost := match jobs !! jIdx with
               | Some j => computeAccessibilityBoost needs j
               | None => 0%Q
               end in
  let score := (base + boost)%Q in
  mret {| jobId := (job_id <$> jobs) !! jIdx; score := score |}.

(** The body of the outer loop: the scores of profile [pIdx] are
    collected, sorted, cut to [topN] and stored under its id. *)
Definition bulkRankProfile (profiles : list UserProfile) (jobs : list JobRow)
    (profileEmbeddings jobEmbeddings : list EmbeddingVector) (topN : Z)
    (results : gmap string (list ScoredCandidate)) (pIdx : nat)
    : M (gmap string (list ScoredCandidate)) :=
  let profileIds := profile_id <$> profiles in
  scores ← mapM (bulkScore profiles jobs profileEmbeddings jobEmbeddings pIdx)
                (seq 0 (length jobEmbeddings));
  let scores := JS.sort (λ a b, score b - score a)%Q scores in
  mret (<[default "undefined" (profileIds !! pIdx) := JS.slice0 scores topN]> results).

Definition computeRecommendationsForAllUsers (supabase : Supabase)
    (topNArg : option Z) : M BulkRecommendations :=
  let topN := default defaultTopN topNArg in
  f ← fetchProfilesAndJobs supabase;
  let profiles := profiles f in
  let jobs := jobs f in
  let profileTexts := profileText <$> profiles in
  let jobTexts := jobText <$> jobs in
  '(profileEmbeddings, jobEmbeddings) ←
    promiseAll2 (callEmbedTexts 0 profileTexts) (callEmbedTexts 1 jobTexts);
  results ←
    foldM (bulkRankProfile profiles jobs profileEmbeddings jobEmbeddings topN)
          ∅ (seq 0 (length profileEmbeddings));
  mret {| bulkResults := results; bulkUsedPostsFallback := usedPostsFallback f |}.

(** The callback of [jobs.map] in the [try] block, for the job [j] at
    index [idx]. *)
Definition semanticScore (profile : UserProfile)
    (profileVec : option EmbeddingVector) (jobEmbeddings : list EmbeddingVector)
    (entry : nat * JobRow) : M ScoredJob :=
  let '(idx, j) := entry in
  base ← callCosineSimilarity profileVec (jobEmbeddings !! idx);
  let boost := computeAccessibilityBoost (accessibility_needs profile) j in
  mret {| job := j; jobScore := (base + boost)%Q |}.

(** The [try] block of [computeRecommendationsForUser]. *)
Definition semanticRanking (profile : UserProfile) (jobs : list JobRow)
    (topN : Z) (usedPostsFallback : bool) : M UserRecommendations :=
  '(profileVecArr, jobEmbeddings) ←
    promiseAll2 (callEmbedTexts 0 [profileText profile])
                (callEmbedTexts 1 (jobText <$> jobs));
  let profileVec := profileVecArr !! 0%nat in
  scored ← mapM (semanticScore profile profileVec jobEmbeddings) (imap pair jobs);
  let scored := JS.sort (λ a b, jobScore b - jobScore a)%Q scored in
  mret {| userResults := JS.slice0 scored topN;
          userUsedPostsFallback := usedPostsFallback |}.

(** The score of a job in the [catch] block. *)
Definition keywordScore (profile : UserProfile) (j : JobRow) : Q :=
  let text := keywordText j in
  let base := fold_left (λ acc word, acc + (if JS.includes text word then 1 else 0))%Q
                        (keywordTokens profile) 0%Q in
  let boost := (computeAccessibilityBoost (accessibility_needs profile) j * 20)%Q in
  (base + boost)%Q.

(** The [catch] block of [computeRecommendationsForUser]. *)
Definition keywordRanking (profile : UserProfile) (jobs : list JobRow)
    (topN : Z) (usedPostsFallback : bool) : M UserRecommendations :=
  let scored := (λ j, {| job := j; jobScore := keywordScore profile j |}) <$> jobs in
  let scored := JS.sort (λ a b, jobScore b - jobScore a)%Q scored in
  mret {| userResults := JS.slice0 scored topN;
          userUsedPostsFallback := usedPostsFallback |}.

Definition computeRecommendationsForUser (supabase : Supabase) (userId : string)
    (topNArg : option Z) : M UserRecommendations :=
  let topN := default defaultTopN topNArg in
  r ← await (QueryProfile userId) (profileQuery supabase userId);
  match error r with
  | Some profileError => throw profileError
  | None =>
      match data r with
      | None => mret {| userResults := []; userUsedPostsFallback := false |}
      | Some profile =>
          '(jobs, usedPostsFallback) ← loadJobs supabase;
          if (length jobs =? 0)%nat then
            mret {| userResults := []; userUsedPostsFallback := usedPostsFallback |}
          else
            tryCatch (semanticRanking profile jobs topN usedPostsFallback)
                     (λ err, keywordRanking profile jobs topN usedPostsFallback)
      end
  end.

End Ranking.

(** ** The wording of the specification *)

(** Definitions that follow the text of the specification, to compare
    with the functions above. *)
Module Spec.

(** "Join non-empty elements with a single space, preserving order." *)
Fixpoint joinNonEmpty (items : list string) : string :=
  match items with
  | [] => ""
  | x :: rest =>
      if JS.truthyStr x then
        match joinNonEmpty rest with
        | EmptyString => x
        | String _ _ as tail => x +:+ " " +:+ tail
        end
      else joinNonEmpty rest
  end.

(** The contract of [skillsToText] and [accessibilityNeedsToText]. *)
Definition normalize (field : TextField) : string :=
  match field with
  | TFArray items => joinNonEmpty items
  | TFString s => s
  | TFNull | TFUndefined => ""
  end.

(** A location of accessibility flags that is absent or not an
    object. *)
Definition notAnObject (v : value) : Prop :=
  match v with
  | VObject _ | VArray _ => False
  | _ => True
  end.

(** The nested location, [job_metadata.accessibility_features]. *)
Definition nestedFeatures (job : JobRow) : value :=
  match job_metadata job with
  | VObject fields => lookupField "accessibility_features" fields
  | _ => VUndefined
  end.

(** The category table of the scorer: a need that contains the keyword
    counts as a match if the job tokens include one of the features. *)
Definition categoryTable : list (string * list string) :=
  [ ("visual", ["screenreadersupport"; "screen_reader_support"; "assistivetechnology"]);
    ("hearing", ["signlanguagesupport"]);
    ("mobility", ["accessibleoffice"; "remotework"]);
    ("cognitive", ["flexiblehours"; "remotework"]) ].

(** The first row of the table whose keyword the need contains. *)
Fixpoint classify (need : string) (table : list (string * list string))
    : option (list string) :=
  match table with
  | [] => None
  | (keyword, features) :: table' =>
      if JS.includes need keyword then Some features else classify need table'
  end.

(** What one need adds to the match count. *)
Definition credit (tokens : gset string) (needRaw : string) : Q :=
  let need := JS.toLowerCase needRaw in
  if JS.truthyStr need then
    match classify need categoryTable with
    | Some features => if existsb (has tokens) features then 1%Q else 0%Q
    | None => if decide (tokens = ∅) then 0%Q else 0.5%Q
    end
  else 0%Q.

Definition matchCount (needs : option (list string)) (job : JobRow) : Q :=
  foldr (λ need total, (credit (enabledFeatures job) need + total)%Q) 0%Q
        (default [] needs).

(** "Final boost = min(0.2, matchCount * 0.05)." *)
Definition boostOfCount (count : Q) : Q := Qmin 0.2 (count * 0.05).

(** The primary source cannot be used: the query failed, or answered
    without an array of rows. *)
Definition primaryUnusable (supabase : Supabase) : Prop :=
  is_Some (error (jobsQuery supabase)) ∨ data (jobsQuery supabase) = None.

(** "The primary source call failed or was empty", where an answer of
    no rows counts as empty. *)
Definition primaryFailedOrEmpty (supabase : Supabase) : Prop :=
  primaryUnusable supabase ∨ data (jobsQuery supabase) = Some [].

Section Ranking.
Context {A : Type} (key : A → Q).

(** [a] may stand before [b] in a list of non-increasing score. *)
Definition descending (a b : A) : Prop := (key b <= key a)%Q.

(** The entries of [l] whose score is [q], in the order of [l]. *)
Definition withScore (q : Q) (l : list A) : list A :=
  List.filter (λ x, Qeq_bool (key x) q) l.

(** [output] is a ranking of [scored]: it is sorted by non-increasing
    score, and it is the front part of a sorted rearrangement of
    [scored] in which the entries of equal score stand in the order
    they have in [scored]. *)
Definition rankingOf (scored output : list A) : Prop :=
  StronglySorted descending output
  ∧ ∃ ranked n,
      output = take n ranked
      ∧ ranked ≡ₚ scored
      ∧ StronglySorted descending ranked
      ∧ ∀ q, withScore q ranked = withScore q scored.
End Ranking.

(** The call entered a [catch] clause: it took the keyword fallback. *)
Definition tookKeywordFallback {A} (m : M A) : Prop :=
  ∃ err, Caught err ∈ trace m.

(** The embedding contract: one vector per input string. *)
Definition oneVectorPerText
    (embedTexts : nat → list string → Error + list EmbeddingVector) : Prop :=
  ∀ k texts vectors, embedTexts k texts = inr vectors → length vectors = length texts.

(** The number of profile tokens that appear as a substring of the job
    text. *)
Definition keywordOverlapCount (tokens : list string) (text : string) : nat :=
  length (List.filter (JS.includes text) tokens).

Section Paths.
Variable embedTexts : nat → list string → Error + list EmbeddingVector.
Variable cosineSimilarity :
  option EmbeddingVector → option EmbeddingVector → Error + Q.

(** The score of [c] is "similarity + boost": the cosine similarity
    of the profile vector and the vector of its job, plus the
    accessibility boost of the job. *)
Definition semanticScoreOf (profile : UserProfile) (jobs : list JobRow)
    (c : ScoredJob) : Prop :=
  ∃ profileVecArr jobEmbeddings idx base,
    embedTexts 0%nat [profileText profile] = inr profileVecArr
    ∧ embedTexts 1%nat (jobText <$> jobs) = inr jobEmbeddings
    ∧ jobs !! idx = Some (job c)
    ∧ cosineSimilarity (profileVecArr !! 0%nat) (jobEmbeddings !! idx) = inr base
    ∧ jobScore c
      = (base + computeAccessibilityBoost (accessibility_needs profile) (job c))%Q.

(** The same for an entry of the bulk ranking, for the profile at
    [pIdx] and the job at [jIdx]. *)
Definition bulkSemanticScoreOf (profiles : list UserProfile) (jobs : list JobRow)
    (profileEmbeddings jobEmbeddings : list EmbeddingVector)
    (c : ScoredCandidate) : Prop :=
  ∃ pIdx jIdx p base,
    profiles !! pIdx = Some p
    ∧ (jIdx < length jobEmbeddings)%nat
    ∧ jobId c = (job_id <$> jobs) !! jIdx
    ∧ cosineSimilarity (profileEmbeddings !! pIdx) (jobEmbeddings !! jIdx) = inr base
    ∧ score c
      = (base + match jobs !! jIdx with
                | Some j => computeAccessibilityBoost (accessibility_needs p) j
                | None => 0
                end)%Q.
End Paths.

(** A returned entry, of either entry point. *)
Inductive Entry : Type :=
  | JobIdEntry (c : ScoredCandidate)
  | JobEntry (c : ScoredJob).

(** The entry has the shape [{ jobId: string, score }]. *)
Definition hasScoredCandidateShape (e : Entry) : Prop :=
  match e with
  | JobIdEntry c => is_Some (jobId c)
  | JobEntry _ => False
  end.

(** The score of [c] is "keywordOverlapCount + scaledBoost". *)
Definition keywordScoreOf (profile : UserProfile) (c : ScoredJob) : Prop :=
  (jobScore c
   == inject_Z (Z.of_nat (keywordOverlapCount (keywordTokens profile)
                                              (keywordText (job c))))
      + computeAccessibilityBoost (accessibility_needs profile) (job c) * 20)%Q.

End Spec.

(** ** Sample collaborators and rows *)

(** The inputs at which the theorems below are instantiated. *)
Module Sample.

Definition dot (a b : EmbeddingVector) : Q :=
  foldr Qplus 0%Q (zip_with Qmult a b).

(** Modelled from the spec: [cosineSimilarity] of [./hfEmbeddings] is
    not part of the sources.  It "must fail fast if the two vectors
    differ in length", and it cannot read a vector that is
    [undefined]; on vectors of norm 1, which the sample embedders
    return, the cosine similarity is the dot product. *)
Definition cosineSimilarity (a b : option EmbeddingVector) : Error + Q :=
  match a, b with
  | Some a, Some b =>
      if (length a =? length b)%nat then inr (dot a b)
      else inl "Vectors must have the same length"
  | _, _ => inl "TypeError"
  end.

(** An embedder with two directions: texts that mention python, and
    the others. *)
Definition embedTexts (k : nat) (texts : list string) : Error + list EmbeddingVector :=
  inr ((λ t, if JS.includes t "python" then [1; 0] else [0; 1])%Q <$> texts).

(** The embedding service is down. *)
Definition embedTextsDown (k : nat) (texts : list string) : Error + list EmbeddingVector :=
  inl "embedding service unavailable".

(** An embedder that answers every batch, with vectors of dimension 2
    for the first batch and of dimension 3 for the second. *)
Definition embedTextsMixed (k : nat) (texts : list string) : Error + list EmbeddingVector :=
  inr ((λ _, if (k =? 0)%nat then [1; 0] else [0; 1; 0])%Q <$> texts).

(** An embedder that answers every batch with no vector at all, so
    that [profileVecArr[0]] is [undefined]. *)
Definition embedTextsNone (k : nat) (texts : list string) : Error + list EmbeddingVector :=
  inr [].

Definition pythonPost : PostRow :=
  {| post_id := "a"; post_title := None; post_content := Some "python developer";
     post_job_metadata :=
       VObject [("accessibility_features",
                 VObject [("screenReaderSupport", VBool true)])] |}.

Definition javaPost : PostRow :=
  {| post_id := "b"; post_title := Some "java developer"; post_content := None;
     post_job_metadata := VNull |}.

Definition goPost : PostRow :=
  {| post_id := "c"; post_title := None; post_content := Some "We need a go engineer";
     post_job_metadata := VNull |}.

Definition user : UserProfile :=
  {| profile_id := "u1"; skills := TFString "python, accessibility";
     accessibility_needs := Some ["visual"] |}.

Definition answer {A} (x : A) : QueryResult A := {| data := Some x; error := None |}.
Definition notFound {A} : QueryResult A := {| data := None; error := None |}.
Definition failed {A} (e : Error) : QueryResult A := {| data := None; error := Some e |}.

Definition lookupUser (userId : string) : QueryResult UserProfile :=
  if String.eqb userId "u1" then answer user else notFound.

(** The jobs table is missing; the job posts are read instead. *)
Definition postsOnly : Supabase :=
  {| profilesQuery := answer [user];
     profileQuery := lookupUser;
     jobsQuery := failed "relation jobs does not exist";
     jobPostsQuery := answer [javaPost; pythonPost; goPost] |}.

(** The jobs table exists and is empty. *)
Definition emptyJobsTable : Supabase :=
  {| profilesQuery := answer [user];
     profileQuery := lookupUser;
     jobsQuery := answer [];
     jobPostsQuery := answer [javaPost; pythonPost; goPost] |}.

Definition pythonJob : JobsRow :=
  {| jobs_id := "j1"; jobs_title := Some "Developer";
     jobs_description := Some "python developer" |}.

Definition javaJob : JobsRow :=
  {| jobs_id := "j2"; jobs_title := Some "Developer";
     jobs_description := Some "java developer" |}.

(** The jobs table answers. *)
Definition jobsTable : Supabase :=
  {| profilesQuery := answer [user];
     profileQuery := lookupUser;
     jobsQuery := answer [javaJob; pythonJob; javaJob];
     jobPostsQuery := failed "not asked" |}.

(** A job whose locations of accessibility flags are a string and a
    number. *)
Definition oddJob : JobRow :=
  {| job_id := "x"; title := None; description := None; content := None;
     job_metadata := VObject [("accessibility_features", VStr "yes")];
     accessibility_features := VNum 1 |}.

End Sample.

(** ** Notions used to state further properties *)

Module Derived.

(** The names [jobAccessibilityToText] collects from one location of
    accessibility flags: the keys with a truthy value of an object,
    the indices of the truthy items of an array. *)
Definition flagNames (v : value) : list string :=
  match v with
  | VObject fields => map fst (List.filter (λ kv, truthy (snd kv)) fields)
  | VArray items =>
      map fst (List.filter (λ kv, truthy (snd kv)) (imap (λ i x, (pretty i, x)) items))
  | _ => []
  end.

(** All the names of a job, those of [job_metadata] first. *)
Definition jobFlagNames (job : JobRow) : list string :=
  flagNames (Spec.nestedFeatures job) ++ flagNames (accessibility_features job).

(** A name that survives the trip through the space-separated text: it
    is not empty and has no white space. *)
Fixpoint noWhiteSpace (s : string) : bool :=
  match s with
  | EmptyString => true
  | String c s' => negb (JS.isWhiteSpace c) && noWhiteSpace s'
  end.

Definition plainName (s : string) : bool := JS.truthyStr s && noWhiteSpace s.

(** Every character of [s] passes the test [p]. *)
Fixpoint allChars (p : ascii → bool) (s : string) : bool :=
  match s with
  | EmptyString => true
  | String c s' => p c && allChars p s'
  end.

(** The separators of the keyword tokens, [[\s,;]]. *)
Definition isTokenSeparator (c : ascii) : bool :=
  JS.isWhiteSpace c || JS.isComma c || JS.isSemicolon c.

(** [toLowerCase] leaves the character as it is. *)
Definition isLowerChar (c : ascii) : bool := Ascii.eqb (JS.lowerChar c) c.

(** An entry of the single-user ranking, read as an entry of the bulk
    ranking: the id of the job and the score. *)
Definition byJobId (c : ScoredJob) : ScoredCandidate :=
  {| jobId := Some (job_id (job c)); score := jobScore c |}.

Definition isEmbedTexts (ev : Event) : bool :=
  match ev with EmbedTexts _ => true | _ => false end.


End Derived.

(** * Properties *)

(** ** The model on small inputs *)

Example splitRuns_spaces :
  JS.splitRuns JS.isWhiteSpace " a  b " = [""; "a"; "b"; ""].
Proof. reflexivity. Qed.

Example splitRuns_empty : JS.splitRuns JS.isWhiteSpace "" = [""].
Proof. reflexivity. Qed.

Example trim_both_ends : JS.trim "  senior  dev " = "senior  dev".
Proof. reflexivity. Qed.

Example slice0_negative : JS.slice0 [1; 2; 3]%nat (-1) = [1; 2]%nat.
Proof. reflexivity. Qed.

Example sort_keeps_ties :
  JS.sort (λ a b : string * Q, snd b - snd a)%Q
    [("a", 1%Q); ("b", 2%Q); ("c", 1%Q); ("d", 2%Q)]
  = [("b", 2%Q); ("d", 2%Q); ("a", 1%Q); ("c", 1%Q)].
Proof. reflexivity. Qed.

Example skillsToText_list :
  skillsToText (TFArray ["go"; ""; "rust"]) = "go rust".
Proof. reflexivity. Qed.

Example jobAccessibilityToText_flags :
  jobAccessibilityToText
    {| job_id := "j"; title := None; description := None; content := None;
       job_metadata :=
         VObject [("accessibility_features",
                   VObject [("remoteWork", VBool true); ("signLanguageSupport", VBool false)])];
       accessibility_features := VObject [("flexibleHours", VNum 1)] |}
  = "remoteWork flexibleHours".
Proof. reflexivity. Qed.

(** The scenario of the specification: the need "visual" against a job
    with [screenReaderSupport] earns 0.05. *)
Example boost_visual_screen_reader :
  (computeAccessibilityBoost (Some ["visual"]) (jobRowOfPost Sample.pythonPost) == 0.05)%Q.
Proof. vm_compute. reflexivity. Qed.

Example boost_is_capped :
  (computeAccessibilityBoost (Some ["Visual"; "visual impairment"; "VISUAL"; "visual"; "low visual"])
     (jobRowOfPost Sample.pythonPost) == 0.2)%Q.
Proof. vm_compute. reflexivity. Qed.

(** The scenario of the specification: the job that mentions python and
    supports screen readers is ranked first. *)
Example python_job_ranks_first :
  match outcome (computeRecommendationsForUser Sample.embedTexts
                   Sample.cosineSimilarity Sample.postsOnly "u1" None) with
  | inr r => job_id ∘ job <$> userResults r
  | inl _ => []
  end = ["a"; "b"; "c"].
Proof. vm_compute. reflexivity. Qed.

(** The scenario of the specification: with the embedding service down,
    the skills go and rust against "We need a go engineer" score 1. *)
Example keyword_overlap_go :
  keywordScore {| profile_id := "u2"; skills := TFArray ["go"; "rust"];
                  accessibility_needs := None |}
               (jobRowOfPost Sample.goPost)
  = 1%Q.
Proof. vm_compute. reflexivity. Qed.

(** ** The monad *)

Section MonadFacts.
Context {A B : Type}.
Implicit Types (m : M A) (f : A → M B).

Lemma outcome_bind_inr m f b :
  outcome (m ≫= f) = inr b ↔ ∃ a, outcome m = inr a ∧ outcome (f a) = inr b.
Proof.
  unfold mbind, M_bind. destruct (outcome m) as [e|a]; simpl.
  - split; [discriminate | intros (a & Ha & _); discriminate].
  - split; [eauto | intros (a' & [= <-] & H); exact H].
Qed.

Lemma outcome_bind_inl m f e :
  outcome (m ≫= f) = inl e ↔
  outcome m = inl e ∨ ∃ a, outcome m = inr a ∧ outcome (f a) = inl e.
Proof.
  unfold mbind, M_bind. destruct (outcome m) as [e'|a]; simpl.
  - split; [intros [= ->]; by left | intros [[= ->]|(a & Ha & _)]; [done | discriminate]].
  - split; [eauto | intros [|(a' & [= <-] & H)]; [discriminate | exact H]].
Qed.

Lemma bind_inr m f a : outcome m = inr a → m ≫= f = MkM (trace m ++ trace (f a)) (outcome (f a)).
Proof. intros H. unfold mbind, M_bind. by rewrite H. Qed.

Lemma bind_inl m f e : outcome m = inl e → m ≫= f = MkM (trace m) (inl e).
Proof. intros H. unfold mbind, M_bind. by rewrite H. Qed.

Lemma trace_bind_nil m f :
  trace m = [] → (∀ a, trace (f a) = []) → trace (m ≫= f) = [].
Proof.
  intros Hm Hf. unfold mbind, M_bind.
  destruct (outcome m); simpl; rewrite Hm; [done | apply Hf].
Qed.
End MonadFacts.

Lemma bind_await {A B} (ev : Event) (answer : A) (f : A → M B) :
  await ev answer ≫= f = MkM (ev :: trace (f answer)) (outcome (f answer)).
Proof. done. Qed.

Section MapM.
Context {A B : Type} (f : A → M B).

Lemma mapM_inr l ys :
  outcome (mapM f l) = inr ys → Forall2 (λ x y, outcome (f x) = inr y) l ys.
Proof.
  revert ys. induction l as [|x l IH]; intros ys; simpl.
  - intros [= <-]. constructor.
  - intros (y & Hy & H)%outcome_bind_inr.
    apply outcome_bind_inr in H as (k & Hk & [= <-]).
    constructor; auto.
Qed.

Lemma mapM_inl l e :
  outcome (mapM f l) = inl e → ∃ x, x ∈ l ∧ outcome (f x) = inl e.
Proof.
  induction l as [|x l IH]; simpl; [discriminate|].
  intros [H|(y & Hy & H)]%outcome_bind_inl.
  - exists x. split; [left | done].
  - apply outcome_bind_inl in H as [H|(k & _ & H)]; [|discriminate].
    destruct (IH H) as (x' & Hin & Hx'). exists x'. split; [by right | done].
Qed.

Lemma mapM_trace_nil l : (∀ x, trace (f x) = []) → trace (mapM f l) = [].
Proof.
  intros Hf. induction l as [|x l IH]; simpl; [done|].
  apply trace_bind_nil; [apply Hf|]. intros y.
  apply trace_bind_nil; [apply IH | done].
Qed.
End MapM.

(** An invariant of the loop [foldM]: what holds of the start and is kept
    by every turn that returns holds of the result. *)
Lemma foldM_invariant {A S} (I : S → Prop) (f : S → A → M S) l s s' :
  I s →
  (∀ s x s', x ∈ l → I s → outcome (f s x) = inr s' → I s') →
  outcome (foldM f s l) = inr s' → I s'.
Proof.
  revert s. induction l as [|x l IH]; intros s Hs Hstep; simpl.
  - by intros [= <-].
  - intros (s1 & H1 & H)%outcome_bind_inr.
    apply (IH s1); [| |done].
    + eapply Hstep; [left | done | done].
    + intros ? ? ? Hin. apply Hstep. by right.
Qed.

(** ** Sorting by decreasing score *)

Section Sort.
Context {A : Type} (key : A → Q).

Local Abbreviation cmp := (λ a b : A, (key b - key a)%Q).

Abbreviation descending := (Spec.descending key).
Abbreviation withScore := (Spec.withScore key).

Lemma cmp_le x y : Qle_bool (cmp x y) 0 = true ↔ (key y <= key x)%Q.
Proof.
  rewrite Qle_bool_iff. split; intros H; lra.
Qed.

Lemma insertBy_Permutation x l : JS.insertBy cmp x l ≡ₚ x :: l.
Proof.
  induction l as [|y l IH]; simpl; [done|].
  destruct (Qle_bool (cmp x y) 0); [done|].
  rewrite IH. apply Permutation_swap.
Qed.

Lemma sort_Permutation l : JS.sort cmp l ≡ₚ l.
Proof.
  induction l as [|x l IH]; simpl; [done|].
  unfold JS.sort in *. simpl. rewrite insertBy_Permutation. by constructor.
Qed.

Lemma length_sort l : length (JS.sort cmp l) = length l.
Proof. apply Permutation_length, sort_Permutation. Qed.

Lemma insertBy_sorted x l :
  StronglySorted descending l → StronglySorted descending (JS.insertBy cmp x l).
Proof.
  induction 1 as [|y l Hl IH Hy]; simpl.
  - repeat constructor.
  - destruct (Qle_bool (cmp x y) 0) eqn:E.
    + apply cmp_le in E. constructor; [by constructor|].
      constructor; [done|].
      eapply Forall_impl; [exact Hy|]. unfold Spec.descending. simpl.
      intros z Hz. lra.
    + constructor; [done|].
      rewrite insertBy_Permutation. constructor; [|done].
      unfold Spec.descending. apply Qlt_le_weak, Qnot_le_lt.
      intros H. apply cmp_le in H. congruence.
Qed.

Lemma sort_sorted l : StronglySorted descending (JS.sort cmp l).
Proof.
  induction l as [|x l IH]; [constructor|].
  unfold JS.sort in *. simpl. by apply insertBy_sorted.
Qed.

Lemma insertBy_withScore q x l :
  withScore q (JS.insertBy cmp x l) = withScore q (x :: l).
Proof.
  induction l as [|y l IH]; [done|]. simpl.
  destruct (Qle_bool (cmp x y) 0) eqn:E; [done|].
  simpl in *. unfold Spec.withScore in *. simpl. rewrite IH. simpl.
  destruct (Qeq_bool (key x) q) eqn:Ex, (Qeq_bool (key y) q) eqn:Ey; try done.
  apply Qeq_bool_iff in Ex, Ey. exfalso.
  assert (Qle_bool (cmp x y) 0 = true); [|congruence].
  apply cmp_le. rewrite Ex, Ey. apply Qle_refl.
Qed.

(** The sort is stable: entries of equal score keep their order. *)
Lemma sort_withScore q l : withScore q (JS.sort cmp l) = withScore q l.
Proof.
  induction l as [|x l IH]; [done|].
  unfold JS.sort in *. simpl. rewrite insertBy_withScore.
  unfold Spec.withScore in *. simpl. by rewrite IH.
Qed.

Lemma take_sorted n l :
  StronglySorted descending l → StronglySorted descending (take n l).
Proof.
  intros H. revert n. induction H as [|y l Hl IH Hy]; intros [|n]; simpl;
    try constructor; [apply IH | by apply Forall_take].
Qed.

Lemma slice0_take (l : list A) e : ∃ n, JS.slice0 l e = take n l.
Proof. unfold JS.slice0. eauto. Qed.

Lemma slice0_sorted l e :
  StronglySorted descending l → StronglySorted descending (JS.slice0 l e).
Proof. intros. unfold JS.slice0. by apply take_sorted. Qed.


(** The result of sort and slice is a ranking of the scored list. *)
Lemma sort_slice0_ranking scored topN :
  Spec.rankingOf key scored (JS.slice0 (JS.sort cmp scored) topN).
Proof.
  split; [apply slice0_sorted, sort_sorted|].
  destruct (slice0_take (JS.sort cmp scored) topN) as [n Hn].
  exists (JS.sort cmp scored), n.
  auto using sort_Permutation, sort_sorted, sort_withScore.
Qed.

Lemma elem_of_slice0 (l : list A) e x : x ∈ JS.slice0 l e → x ∈ l.
Proof. unfold JS.slice0. apply subseteq_take. Qed.
End Sort.

(** ** The loader *)

Lemma loadJobs_primary supabase rows :
  jobsQuery supabase = {| data := Some rows; error := None |} →
  loadJobs supabase = MkM [QueryJobs] (inr (jobRowOfJobs <$> rows, false)).
Proof. intros H. unfold loadJobs. rewrite H. done. Qed.

Lemma loadJobs_inr supabase jobs used :
  outcome (loadJobs supabase) = inr (jobs, used) →
  (used = false ∧ ¬ Spec.primaryUnusable supabase
   ∧ ∃ rows, data (jobsQuery supabase) = Some rows ∧ jobs = jobRowOfJobs <$> rows)
  ∨ (used = true ∧ Spec.primaryUnusable supabase
     ∧ jobs = jobRowOfPost <$> default [] (data (jobPostsQuery supabase))).
Proof.
  unfold loadJobs, Spec.primaryUnusable.
  destruct (jobsQuery supabase) as [d e]. simpl.
  destruct e as [e|], d as [rows|]; simpl;
    try (destruct (error (jobPostsQuery supabase)); simpl; [discriminate|];
         intros [= <- <-]; right; split; [done|]; split; [|done]; eauto).
  intros [= <- <-]. left. split; [done|]. split; [|eauto].
  intros [[? [=]]|[=]].
Qed.

Lemma loadJobs_flag supabase jobs used :
  outcome (loadJobs supabase) = inr (jobs, used) →
  used = true ↔ Spec.primaryUnusable supabase.
Proof.
  intros [(-> & H & _)|(-> & H & _)]%loadJobs_inr; split; try done.
Qed.

Lemma fetchProfilesAndJobs_inr supabase f :
  outcome (fetchProfilesAndJobs supabase) = inr f →
  outcome (loadJobs supabase) = inr (jobs f, usedPostsFallback f).
Proof.
  unfold fetchProfilesAndJobs. intros (r & [= <-] & H)%outcome_bind_inr.
  destruct (error (profilesQuery supabase)); [discriminate|].
  apply outcome_bind_inr in H as ([jobs used] & H & [= <-]). done.
Qed.

(** ** The two entry points, taken apart *)

Section RankingFacts.
Variable embedTexts : nat → list string → Error + list EmbeddingVector.
Variable cosineSimilarity :
  option EmbeddingVector → option EmbeddingVector → Error + Q.

Lemma promiseAll2_embed_inr texts1 texts2 r :
  outcome (promiseAll2 (callEmbedTexts embedTexts 0 texts1)
                       (callEmbedTexts embedTexts 1 texts2)) = inr r ↔
  embedTexts 0%nat texts1 = inr r.1 ∧ embedTexts 1%nat texts2 = inr r.2.
Proof.
  destruct r as [a b]. simpl.
  destruct (embedTexts 0%nat texts1), (embedTexts 1%nat texts2); simpl;
    split; try discriminate; try (intros [[=] [=]]; subst; done);
    try (intros [=]; subst; done).
Qed.

Lemma promiseAll2_embed_inl texts1 texts2 e :
  outcome (promiseAll2 (callEmbedTexts embedTexts 0 texts1)
                       (callEmbedTexts embedTexts 1 texts2)) = inl e →
  isErr (embedTexts 0%nat texts1) ∨ isErr (embedTexts 1%nat texts2).
Proof.
  simpl. destruct (embedTexts 0%nat texts1), (embedTexts 1%nat texts2); simpl;
    try discriminate; auto.
Qed.

Lemma semanticRanking_inr profile jobs topN used r :
  outcome (semanticRanking embedTexts cosineSimilarity profile jobs topN used) = inr r ↔
  ∃ profileVecArr jobEmbeddings scored,
    embedTexts 0%nat [profileText profile] = inr profileVecArr
    ∧ embedTexts 1%nat (jobText <$> jobs) = inr jobEmbeddings
    ∧ outcome (mapM (semanticScore cosineSimilarity profile (profileVecArr !! 0%nat) jobEmbeddings)
                    (imap pair jobs)) = inr scored
    ∧ r = {| userResults :=
               JS.slice0 (JS.sort (λ a b, jobScore b - jobScore a)%Q scored) topN;
             userUsedPostsFallback := used |}.
Proof.
  unfold semanticRanking.
  rewrite outcome_bind_inr. split.
  - intros ([pvs jes] & [H0 H1]%promiseAll2_embed_inr & H).
    apply outcome_bind_inr in H as (scored & Hs & [= <-]).
    exists pvs, jes, scored. done.
  - intros (pvs & jes & scored & H0 & H1 & Hs & ->).
    exists (pvs, jes). split; [by apply promiseAll2_embed_inr|].
    apply outcome_bind_inr. eauto.
Qed.

Lemma semanticScore_inr profile profileVec jobEmbeddings idx j c :
  outcome (semanticScore cosineSimilarity profile profileVec jobEmbeddings (idx, j)) = inr c ↔
  ∃ base, cosineSimilarity profileVec (jobEmbeddings !! idx) = inr base
          ∧ c = {| job := j;
                   jobScore := (base + computeAccessibilityBoost
                                         (accessibility_needs profile) j)%Q |}.
Proof.
  unfold semanticScore. simpl. rewrite outcome_bind_inr. split.
  - intros (base & Hb & [= <-]). eauto.
  - intros (base & Hb & ->). eauto.
Qed.

Lemma tryCatch_inr {A} (m : M A) h r :
  outcome (tryCatch m h) = inr r ↔
  outcome m = inr r ∨ ∃ e, outcome m = inl e ∧ outcome (h e) = inr r.
Proof.
  unfold tryCatch. destruct (outcome m) as [e|a] eqn:E; simpl.
  - split; [eauto | intros [[=]|(e' & [= <-] & H)]; done].
  - rewrite E. split; [eauto | intros [?|(e' & [=] & _)]; done].
Qed.

(** What a call for one user returns when it returns: nothing for a
    missing profile or an empty job list, the semantic ranking, or the
    keyword ranking after the [try] block has thrown. *)
Lemma computeRecommendationsForUser_inr supabase userId topNArg r :
  outcome (computeRecommendationsForUser embedTexts cosineSimilarity
             supabase userId topNArg) = inr r →
  let topN := default defaultTopN topNArg in
  error (profileQuery supabase userId) = None ∧
  ((data (profileQuery supabase userId) = None
    ∧ r = {| userResults := []; userUsedPostsFallback := false |})
   ∨ ∃ profile jobs used,
       data (profileQuery supabase userId) = Some profile
       ∧ outcome (loadJobs supabase) = inr (jobs, used)
       ∧ ((jobs = [] ∧ r = {| userResults := []; userUsedPostsFallback := used |})
          ∨ (jobs ≠ [] ∧ outcome (semanticRanking embedTexts cosineSimilarity profile jobs topN used) = inr r)
          ∨ (jobs ≠ [] ∧ isErr (outcome (semanticRanking embedTexts cosineSimilarity profile jobs topN used))
             ∧ outcome (keywordRanking profile jobs topN used) = inr r))).
Proof.
  unfold computeRecommendationsForUser.
  intros (q & [= <-] & H)%outcome_bind_inr.
  destruct (error (profileQuery supabase userId)); [discriminate|].
  split; [done|].
  destruct (data (profileQuery supabase userId)) as [profile|].
  2:{ injection H as <-. by left. }
  right. apply outcome_bind_inr in H as ([jobs used] & Hl & H).
  exists profile, jobs, used. split; [done|]. split; [done|].
  destruct jobs as [|j jobs].
  - injection H as <-. by left.
  - right. cbn [length Nat.eqb] in H.
    apply tryCatch_inr in H as [H|(e & He & H)]; [left | right]; split; try done.
    split; [|done]. by rewrite He.
Qed.

End RankingFacts.

(** ** Traces *)

Lemma loadJobs_no_catch supabase : ∀ err, Caught err ∉ trace (loadJobs supabase).
Proof.
  intros err. unfold loadJobs, await, mbind, M_bind. simpl.
  destruct (jobsQuery supabase) as [[rows|] [e|]]; simpl;
    try destruct (error (jobPostsQuery supabase)); simpl;
    rewrite ?elem_of_cons, ?elem_of_nil; intros H; decompose [or] H; done.
Qed.

Section TraceFacts.
Variable embedTexts : nat → list string → Error + list EmbeddingVector.
Variable cosineSimilarity :
  option EmbeddingVector → option EmbeddingVector → Error + Q.

Lemma semanticScore_trace profile profileVec jobEmbeddings entry :
  trace (semanticScore cosineSimilarity profile profileVec jobEmbeddings entry) = [].
Proof.
  destruct entry as [idx j]. unfold semanticScore, callCosineSimilarity, mbind, M_bind.
  simpl. by destruct (cosineSimilarity _ _).
Qed.

Lemma semanticRanking_trace profile jobs topN used :
  trace (semanticRanking embedTexts cosineSimilarity profile jobs topN used)
  = [EmbedTexts [profileText profile]; EmbedTexts (jobText <$> jobs)].
Proof.
  unfold semanticRanking. unfold mbind at 1. unfold M_bind.
  destruct (outcome (promiseAll2 _ _)) as [e|[pvs jes]]; [done|].
  simpl. rewrite trace_bind_nil; [done| |done].
  apply mapM_trace_nil, semanticScore_trace.
Qed.

(** The [try] block throws exactly when a batch of the embedding
    service fails or, both batches answered, the similarity of some
    job throws. *)
Lemma semanticRanking_isErr profile jobs topN used :
  isErr (outcome (semanticRanking embedTexts cosineSimilarity profile jobs topN used)) ↔
  isErr (embedTexts 0%nat [profileText profile])
  ∨ isErr (embedTexts 1%nat (jobText <$> jobs))
  ∨ ∃ profileVecArr jobEmbeddings idx j,
      embedTexts 0%nat [profileText profile] = inr profileVecArr
      ∧ embedTexts 1%nat (jobText <$> jobs) = inr jobEmbeddings
      ∧ jobs !! idx = Some j
      ∧ isErr (cosineSimilarity (profileVecArr !! 0%nat) (jobEmbeddings !! idx)).
Proof.
  split.
  - destruct (outcome (semanticRanking _ _ _ _ _ _)) as [e|r] eqn:E; [intros _|done].
    unfold semanticRanking in E.
    apply outcome_bind_inl in E as [E|([pvs jes] & [H0 H1]%promiseAll2_embed_inr & E)].
    { apply promiseAll2_embed_inl in E. tauto. }
    right. right. simpl in H0, H1.
    apply outcome_bind_inl in E as [E|(scored & _ & [=])].
    apply mapM_inl in E as ([idx j] & Hin & E).
    apply elem_of_lookup_imap in Hin as (i & y & [= -> ->] & Hj).
    exists pvs, jes, i, y. repeat (split; [done|]).
    unfold semanticScore in E. simpl in E.
    apply outcome_bind_inl in E as [E|(? & _ & [=])].
    simpl in E. by rewrite E.
  - intros H.
    destruct (outcome (semanticRanking _ _ _ _ _ _)) as [e|r] eqn:E; [done|].
    apply semanticRanking_inr in E as (pvs & jes & scored & H0 & H1 & Hs & _).
    destruct H as [H|[H|(pvs' & jes' & idx & j & H0' & H1' & Hj & H)]].
    + by rewrite H0 in H.
    + by rewrite H1 in H.
    + assert (pvs' = pvs) as -> by congruence.
      assert (jes' = jes) as -> by congruence.
      apply mapM_inr in Hs.
      eapply (Forall2_lookup_l _ _ _ idx (idx, j)) in Hs as (c & _ & Hc).
      2:{ rewrite list_lookup_imap, Hj. done. }
      apply semanticScore_inr in Hc as (base & Hb & _). by rewrite Hb in H.
Qed.

(** A call for a user with a profile and a job list that is not
    empty: the profile query, the loading of the jobs, then the [try]
    statement. *)
Lemma computeRecommendationsForUser_found supabase userId topNArg profile jobs used :
  profileQuery supabase userId = {| data := Some profile; error := None |} →
  outcome (loadJobs supabase) = inr (jobs, used) →
  jobs ≠ [] →
  let topN := default defaultTopN topNArg in
  let body := tryCatch (semanticRanking embedTexts cosineSimilarity profile jobs topN used)
                       (λ _, keywordRanking profile jobs topN used) in
  computeRecommendationsForUser embedTexts cosineSimilarity supabase userId topNArg
  = MkM (QueryProfile userId :: trace (loadJobs supabase) ++ trace body) (outcome body).
Proof.
  intros Hp Hl Hj. unfold computeRecommendationsForUser.
  rewrite bind_await, Hp. cbn [error data].
  rewrite (bind_inr _ _ _ Hl). cbn [trace outcome].
  destruct jobs; [done|]. done.
Qed.

Lemma computeRecommendationsForUser_no_jobs supabase userId topNArg profile used :
  profileQuery supabase userId = {| data := Some profile; error := None |} →
  outcome (loadJobs supabase) = inr ([], used) →
  computeRecommendationsForUser embedTexts cosineSimilarity supabase userId topNArg
  = MkM (QueryProfile userId :: trace (loadJobs supabase))
        (inr {| userResults := []; userUsedPostsFallback := used |}).
Proof.
  intros Hp Hl. unfold computeRecommendationsForUser.
  rewrite bind_await, Hp. cbn [error data].
  rewrite (bind_inr _ _ _ Hl). cbn [trace outcome length Nat.eqb mret M_ret].
  by rewrite app_nil_r.
Qed.

Lemma tookKeywordFallback_found supabase userId topNArg profile jobs used :
  profileQuery supabase userId = {| data := Some profile; error := None |} →
  outcome (loadJobs supabase) = inr (jobs, used) →
  jobs ≠ [] →
  Spec.tookKeywordFallback
    (computeRecommendationsForUser embedTexts cosineSimilarity supabase userId topNArg)
  ↔ isErr (outcome (semanticRanking embedTexts cosineSimilarity profile jobs
                      (default defaultTopN topNArg) used)).
Proof.
  intros Hp Hl Hj. rewrite (computeRecommendationsForUser_found _ _ _ _ _ _ Hp Hl Hj).
  unfold Spec.tookKeywordFallback, tryCatch. cbn [trace].
  pose proof (loadJobs_no_catch supabase) as Hno.
  destruct (outcome (semanticRanking _ _ _ _ _ _)) as [e|r] eqn:E; cbn [trace isErr];
    rewrite semanticRanking_trace.
  - split; [done|]. intros _. exists e.
    rewrite elem_of_cons, !elem_of_app, !elem_of_cons. auto 10.
  - split; [|done]. intros (err & H).
    rewrite elem_of_cons, elem_of_app, !elem_of_cons, elem_of_nil in H.
    destruct H as [[=]|[H|[[=]|[[=]|[]]]]]. by apply Hno in H.
Qed.

End TraceFacts.

(** ** The scored lists *)

Lemma Forall2_elem_of_r {A B} (P : A → B → Prop) l k y :
  Forall2 P l k → y ∈ k → ∃ i x, l !! i = Some x ∧ k !! i = Some y ∧ P x y.
Proof.
  intros HF (i & Hi)%list_elem_of_lookup.
  destruct (Forall2_lookup_r _ _ _ _ _ HF Hi) as (x & Hx & HP). eauto.
Qed.

Lemma query_eta {A} (q : QueryResult A) d e :
  data q = d → error q = e → q = {| data := d; error := e |}.
Proof. destruct q. simpl. by intros -> ->. Qed.

Lemma keywordScore_spec profile j :
  Spec.keywordScoreOf profile {| job := j; jobScore := keywordScore profile j |}.
Proof.
  unfold Spec.keywordScoreOf, keywordScore, Spec.keywordOverlapCount. simpl.
  apply Qplus_inj_r.
  generalize (keywordTokens profile) as tokens. intros tokens.
  assert (H : ∀ acc,
    (fold_left (λ acc word, acc + (if JS.includes (keywordText j) word then 1 else 0))
       tokens acc
     == acc + inject_Z (Z.of_nat (length (List.filter (JS.includes (keywordText j)) tokens))))%Q).
  { induction tokens as [|w tokens IH]; intros acc; simpl.
    - change (inject_Z (Z.of_nat 0)) with 0%Q. lra.
    - rewrite IH. destruct (JS.includes (keywordText j) w); simpl length.
      + rewrite Nat2Z.inj_succ. unfold Z.succ. rewrite inject_Z_plus.
        change (inject_Z 1) with 1%Q. lra.
      + lra. }
  rewrite H. lra.
Qed.

Section ScoredFacts.
Variable embedTexts : nat → list string → Error + list EmbeddingVector.
Variable cosineSimilarity :
  option EmbeddingVector → option EmbeddingVector → Error + Q.

(** The entries the [try] block scores are the jobs, in their order. *)
Lemma semantic_scored_jobs profile profileVec jobEmbeddings jobs scored :
  outcome (mapM (semanticScore cosineSimilarity profile profileVec jobEmbeddings)
                (imap pair jobs)) = inr scored →
  job <$> scored = jobs.
Proof.
  intros HF%mapM_inr. apply list_eq. intros i.
  rewrite list_lookup_fmap.
  destruct (scored !! i) as [c|] eqn:Ec; simpl.
  - destruct (Forall2_lookup_r _ _ _ _ _ HF Ec) as ([idx j] & Hx & Hc).
    rewrite list_lookup_imap in Hx.
    destruct (jobs !! i) as [j'|] eqn:Ej; [|done]. injection Hx as <- <-.
    apply semanticScore_inr in Hc as (base & _ & ->). done.
  - apply Forall2_length in HF. rewrite length_imap in HF.
    apply lookup_ge_None in Ec. symmetry. apply lookup_ge_None. lia.
Qed.

Lemma semantic_scored_entry profile profileVec jobEmbeddings jobs scored c :
  outcome (mapM (semanticScore cosineSimilarity profile profileVec jobEmbeddings)
                (imap pair jobs)) = inr scored →
  c ∈ scored →
  ∃ idx base,
    jobs !! idx = Some (job c)
    ∧ cosineSimilarity profileVec (jobEmbeddings !! idx) = inr base
    ∧ jobScore c
      = (base + computeAccessibilityBoost (accessibility_needs profile) (job c))%Q.
Proof.
  intros HF%mapM_inr Hc.
  destruct (Forall2_elem_of_r _ _ _ _ HF Hc) as (i & [idx j] & Hx & _ & H).
  rewrite list_lookup_imap in Hx.
  destruct (jobs !! i) as [j'|] eqn:Ej; [|done]. injection Hx as <- <-.
  apply semanticScore_inr in H as (base & Hb & ->). simpl. eauto.
Qed.

Lemma keyword_scored_jobs profile (jobs : list JobRow) :
  job <$> ((λ j, {| job := j; jobScore := keywordScore profile j |}) <$> jobs) = jobs.
Proof. rewrite <- list_fmap_compose. apply list_fmap_id. Qed.

Lemma bulkScore_inr profiles jobs profileEmbeddings jobEmbeddings pIdx jIdx c :
  outcome (bulkScore cosineSimilarity profiles jobs profileEmbeddings jobEmbeddings
             pIdx jIdx) = inr c →
  ∃ p base,
    profiles !! pIdx = Some p
    ∧ cosineSimilarity (profileEmbeddings !! pIdx) (jobEmbeddings !! jIdx) = inr base
    ∧ c = {| jobId := (job_id <$> jobs) !! jIdx;
             score := (base + match jobs !! jIdx with
                              | Some j => computeAccessibilityBoost (accessibility_needs p) j
                              | None => 0
                              end)%Q |}.
Proof.
  unfold bulkScore. intros (base & Hb & H)%outcome_bind_inr.
  apply outcome_bind_inr in H as (needs & Hn & [= <-]).
  destruct (profiles !! pIdx) as [p|]; [|discriminate].
  injection Hn as <-. eauto.
Qed.

(** What a bulk call returns when it returns: every list of the result
    is, for some profile, the scores of the inner loop, sorted and cut. *)
Lemma computeRecommendationsForAllUsers_inr supabase topNArg r :
  outcome (computeRecommendationsForAllUsers embedTexts cosineSimilarity
             supabase topNArg) = inr r →
  let topN := default defaultTopN topNArg in
  ∃ f profileEmbeddings jobEmbeddings,
    outcome (fetchProfilesAndJobs supabase) = inr f
    ∧ embedTexts 0%nat (profileText <$> profiles f) = inr profileEmbeddings
    ∧ embedTexts 1%nat (jobText <$> jobs f) = inr jobEmbeddings
    ∧ bulkUsedPostsFallback r = usedPostsFallback f
    ∧ ∀ pid l, bulkResults r !! pid = Some l →
        ∃ pIdx scores,
          outcome (mapM (bulkScore cosineSimilarity (profiles f) (jobs f)
                           profileEmbeddings jobEmbeddings pIdx)
                        (seq 0 (length jobEmbeddings))) = inr scores
          ∧ l = JS.slice0 (JS.sort (λ a b, score b - score a)%Q scores) topN.
Proof.
  unfold computeRecommendationsForAllUsers.
  intros (f & Hf & H)%outcome_bind_inr.
  apply outcome_bind_inr in H as ([pes jes] & [H0 H1]%promiseAll2_embed_inr & H).
  apply outcome_bind_inr in H as (results & Hr & [= <-]).
  exists f, pes, jes. repeat (split; [done|]). cbn [bulkResults].
  pattern results.
  eapply foldM_invariant; [| |exact Hr]; cbv beta.
  - intros pid l. by rewrite lookup_empty.
  - intros results0 pIdx results1 _ IH Hstep pid l.
    unfold bulkRankProfile in Hstep.
    apply outcome_bind_inr in Hstep as (scores & Hs & [= <-]).
    rewrite lookup_insert. case_decide as Hpid; [|apply IH].
    intros [= <-]. eauto.
Qed.

End ScoredFacts.

(** ** Order of the ranked lists *)

(** C6. Every ranked list either entry point returns, on either scoring
    path, is sorted by non-increasing score, and entries of equal score
    stand in the order of the input job list: the list is the front part
    of a stable sort of the entries scored in the order of the jobs. *)
Theorem ranked_lists_sorted_stable embedTexts cosineSimilarity supabase :
  (∀ userId topNArg r,
     outcome (computeRecommendationsForUser embedTexts cosineSimilarity
                supabase userId topNArg) = inr r →
     ∃ jobs scored,
       (∀ profile, data (profileQuery supabase userId) = Some profile →
                   ∃ used, outcome (loadJobs supabase) = inr (jobs, used))
       ∧ job <$> scored = jobs
       ∧ Spec.rankingOf jobScore scored (userResults r))
  ∧ (∀ topNArg r,
       outcome (computeRecommendationsForAllUsers embedTexts cosineSimilarity
                  supabase topNArg) = inr r →
       ∃ f, outcome (fetchProfilesAndJobs supabase) = inr f
            ∧ ∀ pid l, bulkResults r !! pid = Some l →
                ∃ scored,
                  (∀ i c, scored !! i = Some c → jobId c = (job_id <$> jobs f) !! i)
                  ∧ Spec.rankingOf score scored l).
Proof.
  assert (Hnil : ∀ A (key : A → Q), Spec.rankingOf key [] []).
  { intros A key. split; [constructor|]. exists [], 0%nat.
    repeat split; try done; constructor. }
  split.
  - intros userId topNArg r Hr.
    apply computeRecommendationsForUser_inr in Hr as [_ Hr].
    destruct Hr as [[Hn ->]|(profile & jobs & used & Hp & Hl & Hr)].
    { exists [], []. split; [intros p; congruence|]. split; [done|]. apply Hnil. }
    destruct Hr as [[-> ->]|[[_ Hr]|(_ & _ & Hr)]].
    + exists [], []. split; [eauto|]. split; [done|]. apply Hnil.
    + apply semanticRanking_inr in Hr as (pvs & jes & scored & _ & _ & Hs & ->).
      exists jobs, scored. split; [eauto|].
      split; [by eapply semantic_scored_jobs|]. apply sort_slice0_ranking.
    + injection Hr as <-.
      eexists jobs, _. split; [eauto|].
      split; [apply keyword_scored_jobs|]. apply sort_slice0_ranking.
  - intros topNArg r Hr.
    apply computeRecommendationsForAllUsers_inr in Hr
      as (f & pes & jes & Hf & _ & _ & _ & H).
    exists f. split; [done|]. intros pid l Hl.
    destruct (H pid l Hl) as (pIdx & scores & Hs & ->).
    exists scores. split; [|apply sort_slice0_ranking].
    intros i c Hc. apply mapM_inr in Hs.
    destruct (Forall2_lookup_r _ _ _ _ _ Hs Hc) as (jIdx & Hi & Hb).
    apply lookup_seq in Hi as [-> _]. simpl in Hb.
    apply bulkScore_inr in Hb as (p & base & _ & _ & ->). done.
Qed.

Lemma ranked_lists_sorted_stable_witness :
  ∃ r, outcome (computeRecommendationsForUser Sample.embedTexts
                  Sample.cosineSimilarity Sample.jobsTable "u1" (Some 2%Z)) = inr r
       ∧ StronglySorted (Spec.descending jobScore) (userResults r).
Proof.
  eexists. split; [vm_compute; reflexivity|].
  destruct (proj1 (ranked_lists_sorted_stable Sample.embedTexts
                     Sample.cosineSimilarity Sample.jobsTable)
              "u1" (Some 2%Z) _ eq_refl) as (jobs & scored & _ & _ & [H _]).
  exact H.
Defined.

(** ** Length of the ranked lists *)




(** ** Shape of the returned entries *)

Lemma single_user_entry_shape_counterexample :
  (∃ r c, outcome (computeRecommendationsForUser Sample.embedTexts
                     Sample.cosineSimilarity Sample.postsOnly "u1" None) = inr r
          ∧ c ∈ userResults r
          ∧ job c = jobRowOfPost Sample.pythonPost
          ∧ ¬ Spec.hasScoredCandidateShape (Spec.JobEntry c))
  ∧ (∃ r c, outcome (computeRecommendationsForUser Sample.embedTextsDown
                       Sample.cosineSimilarity Sample.postsOnly "u1" None) = inr r
            ∧ c ∈ userResults r
            ∧ job c = jobRowOfPost Sample.pythonPost
            ∧ ¬ Spec.hasScoredCandidateShape (Spec.JobEntry c)).
Proof.
  split; do 2 eexists; (split; [vm_compute; reflexivity|]);
    (split; [left|]); (split; [reflexivity|]); simpl; tauto.
Qed.

(** C1, amended. An entry of the bulk ranking has the shape
    [{ jobId, score }] and carries the id of a job of the input list
    (the embedding service returning one vector per text).  An entry of
    the single-user ranking, on the semantic and on the keyword path
    alike, has the shape [{ job, score }] and carries the whole record
    of a job of the input list. *)
Theorem returned_entry_shapes embedTexts cosineSimilarity supabase :
  (Spec.oneVectorPerText embedTexts →
   ∀ topNArg r,
     outcome (computeRecommendationsForAllUsers embedTexts cosineSimilarity
                supabase topNArg) = inr r →
     ∃ f, outcome (fetchProfilesAndJobs supabase) = inr f
          ∧ ∀ pid l c, bulkResults r !! pid = Some l → c ∈ l →
              Spec.hasScoredCandidateShape (Spec.JobIdEntry c)
              ∧ ∃ j, j ∈ jobs f ∧ jobId c = Some (job_id j))
  ∧ (∀ userId topNArg r c,
       outcome (computeRecommendationsForUser embedTexts cosineSimilarity
                  supabase userId topNArg) = inr r →
       c ∈ userResults r →
       ∃ jobs used, outcome (loadJobs supabase) = inr (jobs, used) ∧ job c ∈ jobs).
Proof.
  split.
  - intros Hone topNArg r Hr.
    apply computeRecommendationsForAllUsers_inr in Hr
      as (f & pes & jes & Hf & _ & H1 & _ & H).
    exists f. split; [done|]. intros pid l c Hl Hc.
    destruct (H pid l Hl) as (pIdx & scores & Hs & ->).
    apply elem_of_slice0 in Hc. rewrite (sort_Permutation score) in Hc.
    apply mapM_inr in Hs.
    destruct (Forall2_elem_of_r _ _ _ _ Hs Hc) as (i & jIdx & Hi & _ & Hb).
    apply lookup_seq in Hi as [-> Hlt]. simpl in Hb.
    apply bulkScore_inr in Hb as (p & base & _ & _ & ->). cbn [jobId].
    apply Hone in H1. rewrite length_fmap in H1. rewrite H1 in Hlt.
    destruct (lookup_lt_is_Some_2 (jobs f) i Hlt) as [j Hj].
    rewrite list_lookup_fmap, Hj. simpl. split; [by eexists|].
    exists j. split; [|done]. by eapply list_elem_of_lookup_2.
  - intros userId topNArg r c Hr Hc.
    apply computeRecommendationsForUser_inr in Hr as [_ Hr].
    destruct Hr as [[_ ->]|(profile & jobs & used & _ & Hl & Hr)].
    { by apply elem_of_nil in Hc. }
    exists jobs, used. split; [done|].
    destruct Hr as [[_ ->]|[[_ Hr]|(_ & _ & Hr)]].
    + by apply elem_of_nil in Hc.
    + apply semanticRanking_inr in Hr as (pvs & jes & scored & _ & _ & Hs & ->).
      cbn [userResults] in Hc.
      apply elem_of_slice0 in Hc. rewrite (sort_Permutation jobScore) in Hc.
      destruct (semantic_scored_entry _ _ _ _ _ _ _ Hs Hc) as (idx & _ & Hj & _).
      by eapply list_elem_of_lookup_2.
    + injection Hr as <-. cbn [userResults] in Hc.
      apply elem_of_slice0 in Hc. rewrite (sort_Permutation jobScore) in Hc.
      apply list_elem_of_fmap in Hc as (j & -> & Hj). done.
Qed.

Lemma returned_entry_shapes_witness :
  ∃ r c, outcome (computeRecommendationsForUser Sample.embedTexts
                    Sample.cosineSimilarity Sample.postsOnly "u1" None) = inr r
         ∧ c ∈ userResults r
         ∧ ∃ jobs used, outcome (loadJobs Sample.postsOnly) = inr (jobs, used)
                        ∧ job c ∈ jobs.
Proof.
  do 2 eexists. split; [vm_compute; reflexivity|]. split; [left|].
  apply (proj2 (returned_entry_shapes Sample.embedTexts Sample.cosineSimilarity
                  Sample.postsOnly) "u1" None _ _ eq_refl).
  left.
Defined.

(** ** When the keyword fallback is taken *)

Lemma keyword_fallback_without_embedding_failure_counterexample :
  let jobs := jobRowOfPost <$> [Sample.javaPost; Sample.pythonPost; Sample.goPost] in
  let mixed := computeRecommendationsForUser Sample.embedTextsMixed
                 Sample.cosineSimilarity Sample.postsOnly "u1" None in
  let none := computeRecommendationsForUser Sample.embedTextsNone
                Sample.cosineSimilarity Sample.postsOnly "u1" None in
  (¬ isErr (Sample.embedTextsMixed 0%nat [profileText Sample.user])
   ∧ ¬ isErr (Sample.embedTextsMixed 1%nat (jobText <$> jobs))
   ∧ Spec.tookKeywordFallback mixed
   ∧ outcome mixed = outcome (keywordRanking Sample.user jobs 5 true))
  ∧ (¬ isErr (Sample.embedTextsNone 0%nat [profileText Sample.user])
     ∧ ¬ isErr (Sample.embedTextsNone 1%nat (jobText <$> jobs))
     ∧ Spec.tookKeywordFallback none
     ∧ outcome none = outcome (keywordRanking Sample.user jobs 5 true)).
Proof.
  split; (split; [simpl; tauto|]); (split; [simpl; tauto|]); split.
  - exists "Vectors must have the same length". vm_compute.
    do 5 right. left.
  - vm_compute. reflexivity.
  - exists "TypeError". vm_compute. do 5 right. left.
  - vm_compute. reflexivity.
Qed.

(** C2, amended. In a single-user ranking with a stored profile and a
    job list that is not empty the call returns: neither a failure of
    [embedTexts] nor any other error of the [try] block reaches the
    caller.  The keyword fallback is taken if and only if the [try]
    block throws, that is, when one of the two [embedTexts] batches
    fails or, both having answered, [cosineSimilarity] throws for some
    job. *)
Theorem keyword_fallback_iff_try_block_throws
    embedTexts cosineSimilarity supabase userId topNArg profile jobs used :
  profileQuery supabase userId = {| data := Some profile; error := None |} →
  outcome (loadJobs supabase) = inr (jobs, used) →
  jobs ≠ [] →
  let call := computeRecommendationsForUser embedTexts cosineSimilarity
                supabase userId topNArg in
  (∃ r, outcome call = inr r)
  ∧ (Spec.tookKeywordFallback call ↔
     isErr (embedTexts 0%nat [profileText profile])
     ∨ isErr (embedTexts 1%nat (jobText <$> jobs))
     ∨ ∃ profileVecArr jobEmbeddings idx j,
         embedTexts 0%nat [profileText profile] = inr profileVecArr
         ∧ embedTexts 1%nat (jobText <$> jobs) = inr jobEmbeddings
         ∧ jobs !! idx = Some j
         ∧ isErr (cosineSimilarity (profileVecArr !! 0%nat) (jobEmbeddings !! idx))).
Proof.
  intros Hp Hl Hj call. split.
  - subst call. rewrite (computeRecommendationsForUser_found _ _ _ _ _ _ _ _ Hp Hl Hj).
    cbn [outcome]. unfold tryCatch.
    destruct (outcome (semanticRanking _ _ _ _ _ _)) as [e|r] eqn:E; cbn [outcome]; eauto.
  - subst call. rewrite (tookKeywordFallback_found _ _ _ _ _ _ _ _ Hp Hl Hj).
    apply semanticRanking_isErr.
Qed.

Lemma keyword_fallback_iff_try_block_throws_witness :
  Spec.tookKeywordFallback
    (computeRecommendationsForUser Sample.embedTextsDown Sample.cosineSimilarity
       Sample.postsOnly "u1" None).
Proof.
  apply (keyword_fallback_iff_try_block_throws Sample.embedTextsDown
           Sample.cosineSimilarity Sample.postsOnly "u1" None Sample.user
           (jobRowOfPost <$> [Sample.javaPost; Sample.pythonPost; Sample.goPost]) true);
    [reflexivity | reflexivity | discriminate | left; exact I].
Defined.

(** ** A user without a profile *)

(** C9. For a user id with no stored profile the single-user ranking
    returns [{ results: [], usedPostsFallback: false }]; it does not
    throw, and the profile query is the only call it makes: neither the
    job sources nor the embedding service are asked. *)
Theorem missing_profile_empty_result embedTexts cosineSimilarity supabase userId topN :
  profileQuery supabase userId = {| data := None; error := None |} →
  computeRecommendationsForUser embedTexts cosineSimilarity supabase userId topN
  = MkM [QueryProfile userId]
        (inr {| userResults := []; userUsedPostsFallback := false |}).
Proof.
  intros H. unfold computeRecommendationsForUser, await, mbind, M_bind.
  simpl. rewrite H. done.
Qed.

Lemma missing_profile_empty_result_witness :
  computeRecommendationsForUser Sample.embedTexts Sample.cosineSimilarity
    Sample.postsOnly "nobody" None
  = MkM [QueryProfile "nobody"]
        (inr {| userResults := []; userUsedPostsFallback := false |}).
Proof. apply missing_profile_empty_result. reflexivity. Defined.

(** ** Rows of the jobs table carry no accessibility data *)

Lemma boost_of_jobs_row needs r :
  computeAccessibilityBoost needs (jobRowOfJobs r) = 0%Q.
Proof.
  unfold computeAccessibilityBoost.
  destruct needs as [needs|]; [|done].
  destruct (length needs =? 0)%nat; done.
Qed.

(** C4. A row of the primary jobs source, which is read with the columns
    id, title and description only, has the empty accessibility text and
    the boost 0 for every needs list; a job with a boost other than 0 has
    been loaded from the fallback posts source. *)
Theorem primary_rows_have_no_boost :
  (∀ r needs,
     jobAccessibilityToText (jobRowOfJobs r) = ""
     ∧ computeAccessibilityBoost needs (jobRowOfJobs r) = 0%Q)
  ∧ (∀ supabase jobs used j needs,
       outcome (loadJobs supabase) = inr (jobs, used) →
       j ∈ jobs →
       ¬ (computeAccessibilityBoost needs j == 0)%Q →
       used = true).
Proof.
  split.
  - intros r needs. split; [done | apply boost_of_jobs_row].
  - intros supabase jobs used j needs Hl Hj Hb.
    apply loadJobs_inr in Hl as [(-> & _ & rows & _ & ->)|(-> & _)]; [|done].
    apply list_elem_of_fmap in Hj as (r & -> & _).
    rewrite boost_of_jobs_row in Hb. by destruct Hb.
Qed.

Lemma primary_rows_have_no_boost_witness :
  ∃ jobs used, outcome (loadJobs Sample.postsOnly) = inr (jobs, used)
               ∧ jobRowOfPost Sample.pythonPost ∈ jobs
               ∧ used = true.
Proof.
  exists (jobRowOfPost <$> [Sample.javaPost; Sample.pythonPost; Sample.goPost]), true.
  split; [reflexivity|]. split; [right; left|].
  apply (proj2 primary_rows_have_no_boost Sample.postsOnly
           (jobRowOfPost <$> [Sample.javaPost; Sample.pythonPost; Sample.goPost])
           true (jobRowOfPost Sample.pythonPost) (Some ["visual"]));
    [reflexivity | right; left | vm_compute; discriminate].
Defined.

(** ** The fallback-source flag *)

Lemma usedPostsFallback_empty_table_counterexample :
  Spec.primaryFailedOrEmpty Sample.emptyJobsTable
  ∧ (∃ r, outcome (computeRecommendationsForAllUsers Sample.embedTexts
                     Sample.cosineSimilarity Sample.emptyJobsTable None) = inr r
          ∧ bulkUsedPostsFallback r = false)
  ∧ outcome (computeRecommendationsForUser Sample.embedTexts
               Sample.cosineSimilarity Sample.emptyJobsTable "u1" None)
    = inr {| userResults := []; userUsedPostsFallback := false |}.
Proof.
  split; [by right|]. split; [|reflexivity].
  eexists. split; [vm_compute; reflexivity | reflexivity].
Qed.

(** C3, amended. In every call of either entry point that returns (for
    the single-user one, with a stored profile), [usedPostsFallback] is
    true if and only if the primary jobs query failed or answered without
    an array of rows; an empty array of rows leaves it false.  The
    embedding service and the similarity function, and so the scoring
    path, have no part in it. *)
Theorem usedPostsFallback_iff_primary_unusable embedTexts cosineSimilarity supabase :
  (∀ topN r,
     outcome (computeRecommendationsForAllUsers embedTexts cosineSimilarity
                supabase topN) = inr r →
     bulkUsedPostsFallback r = true ↔ Spec.primaryUnusable supabase)
  ∧ (∀ userId topN r,
       is_Some (data (profileQuery supabase userId)) →
       outcome (computeRecommendationsForUser embedTexts cosineSimilarity
                  supabase userId topN) = inr r →
       userUsedPostsFallback r = true ↔ Spec.primaryUnusable supabase).
Proof.
  split.
  - intros topN r (f & Hf & H)%outcome_bind_inr.
    apply outcome_bind_inr in H as ([pes jes] & _ & H).
    apply outcome_bind_inr in H as (results & _ & [= <-]). simpl.
    eapply loadJobs_flag, fetchProfilesAndJobs_inr, Hf.
  - intros userId topN r [profile Hp] H.
    apply computeRecommendationsForUser_inr in H as [_ H].
    destruct H as [[Hn _]|(p & jobs & used & _ & Hl & H)]; [congruence|].
    assert (userUsedPostsFallback r = used) as ->; [|by eapply loadJobs_flag].
    destruct H as [[_ ->]|[[_ H]|(_ & _ & H)]]; [done| |].
    + apply semanticRanking_inr in H as (? & ? & ? & _ & _ & _ & ->). done.
    + by injection H as <-.
Qed.

Lemma usedPostsFallback_iff_primary_unusable_witness :
  ∃ r, outcome (computeRecommendationsForUser Sample.embedTextsDown
                  Sample.cosineSimilarity Sample.postsOnly "u1" None) = inr r
       ∧ (userUsedPostsFallback r = true ↔ Spec.primaryUnusable Sample.postsOnly).
Proof.
  eexists. split; [vm_compute; reflexivity|].
  apply (proj2 (usedPostsFallback_iff_primary_unusable Sample.embedTextsDown
                  Sample.cosineSimilarity Sample.postsOnly) "u1" None).
  - eexists. reflexivity.
  - vm_compute. reflexivity.
Defined.

(** ** Accessibility compatibility scorer *)

Lemma has_empty x : has ∅ x = false.
Proof. unfold has. apply bool_decide_eq_false. set_solver. Qed.

Lemma credit_empty need : Spec.credit ∅ need = 0%Q.
Proof.
  unfold Spec.credit. destruct (JS.truthyStr _); [|done].
  destruct (Spec.classify _ _) as [features|].
  - replace (existsb (has ∅) features) with false; [done|].
    induction features as [|x features IH]; [done|]. simpl. by rewrite has_empty.
  - by rewrite decide_True.
Qed.

Lemma credit_nonneg tokens need : (0 <= Spec.credit tokens need)%Q.
Proof.
  unfold Spec.credit.
  repeat match goal with
         | |- context [if ?c then _ else _] => destruct c
         | |- context [match ?c with Some _ => _ | None => _ end] => destruct c
         end; lra.
Qed.

Lemma size_pos_nonempty (enabled : gset string) :
  (0 <? size enabled)%nat = true ↔ enabled ≠ ∅.
Proof.
  rewrite Nat.ltb_lt. split.
  - intros H ->. rewrite size_empty in H. lia.
  - intros H. destruct (size enabled) eqn:E; [|lia].
    apply size_empty_iff in E. by apply leibniz_equiv in E.
Qed.

(** A turn of the loop adds the credit of the table. *)
Lemma boostStep_credit enabled matches needRaw :
  (boostStep enabled matches needRaw == matches + Spec.credit enabled needRaw)%Q.
Proof.
  unfold boostStep, Spec.credit.
  replace (if JS.truthyStr needRaw then needRaw else "") with needRaw
    by (by destruct needRaw).
  destruct (JS.truthyStr (JS.toLowerCase needRaw)); cbn [negb]; [|lra].
  unfold Spec.categoryTable. cbn [Spec.classify].
  repeat match goal with
         | |- context [JS.includes ?a ?b] => destruct (JS.includes a b)
         end; cbn [existsb];
    repeat match goal with
           | |- context [has enabled ?x] => destruct (has enabled x)
           end; cbn [orb]; try lra.
  all: destruct (0 <? size enabled)%nat eqn:E; case_decide as E'; try lra.
  - apply size_pos_nonempty in E. done.
  - exfalso. apply E'. destruct (size enabled) eqn:Es.
    + apply size_empty_iff in Es. by apply leibniz_equiv in Es.
    + apply Nat.ltb_ge in E. lia.
Qed.

Lemma fold_boostStep enabled needs matches :
  (fold_left (boostStep enabled) needs matches ==
   matches + foldr (λ need total, Spec.credit enabled need + total) 0 needs)%Q.
Proof.
  revert matches. induction needs as [|need needs IH]; intros matches; simpl.
  - lra.
  - rewrite IH, boostStep_credit. lra.
Qed.

Lemma matchCount_nonneg needs job : (0 <= Spec.matchCount needs job)%Q.
Proof.
  unfold Spec.matchCount. induction (default [] needs) as [|need l IH]; simpl.
  - lra.
  - pose proof (credit_nonneg (enabledFeatures job) need). lra.
Qed.

(** The function computes the formula of the specification. *)
Lemma computeAccessibilityBoost_formula needs job :
  (computeAccessibilityBoost needs job
   == Spec.boostOfCount (Spec.matchCount needs job))%Q.
Proof.
  unfold computeAccessibilityBoost, Spec.boostOfCount, Spec.matchCount.
  destruct needs as [needs|]; [|done]. simpl.
  destruct needs as [|need needs]; [done|].
  cbn [length Nat.eqb].
  destruct (size (enabledFeatures job) =? 0)%nat eqn:E.
  - apply Nat.eqb_eq, size_empty_iff in E. apply leibniz_equiv in E. rewrite E.
    replace (foldr _ _ _) with 0%Q; [done|].
    induction (need :: needs) as [|x l IH]; [done|]. simpl.
    by rewrite credit_empty, <- IH.
  - cbv zeta. rewrite fold_boostStep.
    apply Q.min_compat; [done|]. lra.
Qed.

Lemma boostOfCount_mono c c' :
  (c <= c')%Q → (Spec.boostOfCount c <= Spec.boostOfCount c')%Q.
Proof.
  intros H. unfold Spec.boostOfCount.
  apply Q.min_le_compat_l. lra.
Qed.

(** C5. For every needs list and every job, [computeAccessibilityBoost]
    returns [min(0.2, matchCount * 0.05)], where [matchCount] adds up the
    credits of the category table (and 0.5 for a need of no category when
    the job has a feature); so the result lies in [[0, 0.2]] and does not
    decrease when the match count grows. *)
Theorem computeAccessibilityBoost_bounded_monotone needs job :
  (computeAccessibilityBoost needs job
   == Qmin 0.2 (Spec.matchCount needs job * 0.05))%Q
  ∧ (0 <= computeAccessibilityBoost needs job <= 0.2)%Q
  ∧ ∀ needs' job',
      (Spec.matchCount needs job <= Spec.matchCount needs' job')%Q →
      (computeAccessibilityBoost needs job <= computeAccessibilityBoost needs' job')%Q.
Proof.
  split; [apply computeAccessibilityBoost_formula|]. split.
  - rewrite computeAccessibilityBoost_formula. unfold Spec.boostOfCount. split.
    + apply Q.min_glb; [lra|]. pose proof (matchCount_nonneg needs job). lra.
    + apply Q.le_min_l.
  - intros needs' job' H. rewrite !computeAccessibilityBoost_formula.
    by apply boostOfCount_mono.
Qed.

Lemma computeAccessibilityBoost_bounded_monotone_witness :
  (computeAccessibilityBoost (Some ["visual"]) (jobRowOfPost Sample.javaPost)
   <= computeAccessibilityBoost (Some ["visual"; "other"]) (jobRowOfPost Sample.pythonPost))%Q.
Proof.
  apply (computeAccessibilityBoost_bounded_monotone (Some ["visual"])
           (jobRowOfPost Sample.javaPost)).
  vm_compute. discriminate.
Defined.

(** ** One scoring path per call *)

Lemma semanticRanking_scores embedTexts cosineSimilarity profile jobs topN used r :
  outcome (semanticRanking embedTexts cosineSimilarity profile jobs topN used) = inr r →
  Forall (Spec.semanticScoreOf embedTexts cosineSimilarity profile jobs) (userResults r).
Proof.
  intros (pvs & jes & scored & H0 & H1 & Hs & ->)%semanticRanking_inr. simpl.
  apply Forall_forall. intros c Hc%elem_of_slice0.
  rewrite (sort_Permutation jobScore) in Hc.
  destruct (semantic_scored_entry _ _ _ _ _ _ _ Hs Hc) as (idx & base & Hj & Hb & Hscore).
  exists pvs, jes, idx, base. done.
Qed.

Lemma keywordRanking_scores profile jobs topN used r :
  outcome (keywordRanking profile jobs topN used) = inr r →
  Forall (Spec.keywordScoreOf profile) (userResults r).
Proof.
  intros [= <-]. simpl.
  apply Forall_forall. intros c Hc%elem_of_slice0.
  rewrite (sort_Permutation jobScore) in Hc.
  apply list_elem_of_fmap in Hc as (j & -> & _). apply keywordScore_spec.
Qed.

Lemma bulk_scores cosineSimilarity profiles jobs pes jes pIdx scores topN :
  outcome (mapM (bulkScore cosineSimilarity profiles jobs pes jes pIdx)
                (seq 0 (length jes))) = inr scores →
  Forall (Spec.bulkSemanticScoreOf cosineSimilarity profiles jobs pes jes)
         (JS.slice0 (JS.sort (λ a b, score b - score a)%Q scores) topN).
Proof.
  intros HF%mapM_inr. apply Forall_forall. intros c Hc%elem_of_slice0.
  rewrite (sort_Permutation score) in Hc.
  destruct (Forall2_elem_of_r _ _ _ _ HF Hc) as (i & jIdx & Hi & _ & H).
  apply lookup_seq in Hi as [-> Hlt]. simpl in H.
  apply bulkScore_inr in H as (p & base & Hp & Hb & ->).
  exists pIdx, i, p, base. done.
Qed.

(** C8. Within one ranking call every score of a returned list comes
    from the same scoring path.  A single-user call that did not take
    the keyword fallback returns only scores "cosineSimilarity + boost";
    one that took it returns only scores "number of profile tokens that
    are substrings of the job text + boost * 20".  A bulk call returns
    only scores "cosineSimilarity + boost". *)
Theorem one_scoring_path_per_call embedTexts cosineSimilarity supabase :
  (∀ userId topNArg profile jobs used r,
     data (profileQuery supabase userId) = Some profile →
     outcome (loadJobs supabase) = inr (jobs, used) →
     let call := computeRecommendationsForUser embedTexts cosineSimilarity
                   supabase userId topNArg in
     outcome call = inr r →
     (¬ Spec.tookKeywordFallback call
      ∧ Forall (Spec.semanticScoreOf embedTexts cosineSimilarity profile jobs)
               (userResults r))
     ∨ (Spec.tookKeywordFallback call
        ∧ Forall (Spec.keywordScoreOf profile) (userResults r)))
  ∧ (∀ topNArg r,
       outcome (computeRecommendationsForAllUsers embedTexts cosineSimilarity
                  supabase topNArg) = inr r →
       ∃ f profileEmbeddings jobEmbeddings,
         outcome (fetchProfilesAndJobs supabase) = inr f
         ∧ embedTexts 0%nat (profileText <$> profiles f) = inr profileEmbeddings
         ∧ embedTexts 1%nat (jobText <$> jobs f) = inr jobEmbeddings
         ∧ ∀ pid l, bulkResults r !! pid = Some l →
             Forall (Spec.bulkSemanticScoreOf cosineSimilarity (profiles f) (jobs f)
                       profileEmbeddings jobEmbeddings) l).
Proof.
  split.
  - intros userId topNArg profile jobs used r Hd Hl call Hr.
    pose proof (computeRecommendationsForUser_inr _ _ _ _ _ _ Hr) as [He _].
    pose proof (query_eta _ _ _ Hd He) as Hp.
    destruct (decide (jobs = [])) as [->|Hj].
    + left. subst call.
      rewrite (computeRecommendationsForUser_no_jobs _ _ _ _ _ _ _ Hp Hl) in *.
      injection Hr as <-. split; [|constructor].
      intros (err & H). apply elem_of_cons in H as [[=]|H].
      by apply loadJobs_no_catch in H.
    + subst call.
      rewrite (tookKeywordFallback_found _ _ _ _ _ _ _ _ Hp Hl Hj).
      rewrite (computeRecommendationsForUser_found _ _ _ _ _ _ _ _ Hp Hl Hj) in Hr.
      cbn [outcome] in Hr. apply tryCatch_inr in Hr as [Hr|(e & He' & Hr)].
      * left. rewrite Hr. split; [tauto|]. by eapply semanticRanking_scores.
      * right. rewrite He'. split; [done|]. by eapply keywordRanking_scores.
  - intros topNArg r Hr.
    apply computeRecommendationsForAllUsers_inr in Hr
      as (f & pes & jes & Hf & H0 & H1 & _ & H).
    exists f, pes, jes. repeat (split; [done|]).
    intros pid l Hl. destruct (H pid l Hl) as (pIdx & scores & Hs & ->).
    by eapply bulk_scores.
Qed.

Lemma one_scoring_path_per_call_witness :
  ∃ r, outcome (computeRecommendationsForUser Sample.embedTextsDown
                  Sample.cosineSimilarity Sample.postsOnly "u1" None) = inr r
       ∧ Forall (Spec.keywordScoreOf Sample.user) (userResults r).
Proof.
  eexists. split; [vm_compute; reflexivity|].
  destruct (proj1 (one_scoring_path_per_call Sample.embedTextsDown
                     Sample.cosineSimilarity Sample.postsOnly)
              "u1" None Sample.user
              (jobRowOfPost <$> [Sample.javaPost; Sample.pythonPost; Sample.goPost])
              true _ eq_refl eq_refl eq_refl) as [[H _]|[_ H]].
  - exfalso. apply H. exists "embedding service unavailable". vm_compute.
    do 5 right. left.
  - exact H.
Defined.

(** ** Text normalizers *)

Lemma join_joinNonEmpty items :
  JS.join " " (List.filter JS.truthyStr items) = Spec.joinNonEmpty items.
Proof.
  induction items as [|x items IH]; [done|]. simpl.
  destruct (JS.truthyStr x) eqn:Ex; [|done].
  rewrite <- IH. simpl.
  destruct (List.filter JS.truthyStr items) as [|y rest] eqn:E; [done|].
  assert (Hy : JS.truthyStr y = true).
  { assert (Hin : In y (List.filter JS.truthyStr items)) by (rewrite E; by left).
    by apply filter_In in Hin as [_ ?]. }
  destruct y as [|c y]; [done|].
  destruct rest; simpl; done.
Qed.

Lemma pushTruthyKeys_returns features source :
  ∃ features', pushTruthyKeys features source = MkM [] (inr features').
Proof.
  unfold pushTruthyKeys.
  destruct source as [| |b|n|s|items|fields]; simpl; eauto;
    repeat match goal with |- context [if ?c then _ else _] => destruct c end; eauto.
Qed.

Lemma pushTruthyKeys_notAnObject features source :
  Spec.notAnObject source → pushTruthyKeys features source = MkM [] (inr features).
Proof.
  unfold pushTruthyKeys.
  destruct source as [| |b|n|s|items|fields]; simpl; try done;
    intros _; by rewrite andb_false_r.
Qed.

Lemma jobAccessibilityToTextM_returns job :
  jobAccessibilityToTextM job = MkM [] (inr (jobAccessibilityToText job)).
Proof.
  unfold jobAccessibilityToText, jobAccessibilityToTextM.
  set (meta := if truthy (job_metadata job) then _ else _).
  destruct (pushTruthyKeys_returns [] (optGet meta "accessibility_features")) as [f1 ->].
  destruct (pushTruthyKeys_returns f1 (accessibility_features job)) as [f2 E].
  unfold mbind, M_bind. simpl. rewrite E. done.
Qed.

Lemma optGet_meta_nested job :
  optGet (if truthy (job_metadata job) then job_metadata job else VObject [])
         "accessibility_features" = Spec.nestedFeatures job.
Proof.
  unfold Spec.nestedFeatures.
  destruct (job_metadata job) as [| |b|n|s|items|fields]; simpl; try done;
    repeat match goal with |- context [if ?c then _ else _] => destruct c end; done.
Qed.

(** C10. The normalizers are total.  [skillsToText] and
    [accessibilityNeedsToText] return, for every input and so for [null]
    and an absent field, the string of their contract: the non-empty
    elements of a list joined by one space, a string itself, the empty
    string otherwise.  [jobAccessibilityToText] returns a string for
    every job without throwing and without calling a collaborator, and
    the empty string when both locations of the accessibility flags are
    absent or not an object. *)
Theorem normalizers_total :
  (∀ field, skillsToText field = Spec.normalize field
            ∧ accessibilityNeedsToText field = Spec.normalize field)
  ∧ (∀ job, ∃ text, jobAccessibilityToTextM job = MkM [] (inr text)
                    ∧ jobAccessibilityToText job = text)
  ∧ (∀ job, Spec.notAnObject (Spec.nestedFeatures job) →
            Spec.notAnObject (accessibility_features job) →
            jobAccessibilityToTextM job = MkM [] (inr "")).
Proof.
  split; [|split].
  - intros [s|items| |]; simpl; auto using join_joinNonEmpty.
  - intros job. eauto using jobAccessibilityToTextM_returns.
  - intros job H1 H2. unfold jobAccessibilityToTextM.
    rewrite optGet_meta_nested.
    rewrite (pushTruthyKeys_notAnObject _ _ H1). unfold mbind, M_bind. simpl.
    rewrite (pushTruthyKeys_notAnObject _ _ H2). done.
Qed.

Lemma normalizers_total_witness :
  jobAccessibilityToTextM Sample.oddJob = MkM [] (inr "").
Proof.
  apply (proj2 (proj2 normalizers_total) Sample.oddJob); exact I.
Defined.

(** * Further properties *)

#[local] Set Warnings "-clear-no-such-hyp".

(** ** Storage errors and the calls a ranking makes *)

Lemma primaryUnusable_dec supabase :
  Spec.primaryUnusable supabase ∨ ¬ Spec.primaryUnusable supabase.
Proof.
  unfold Spec.primaryUnusable.
  destruct (error (jobsQuery supabase)), (data (jobsQuery supabase)); eauto;
    right; intros [[? [=]]|[=]].
Qed.

Lemma loadJobs_usable supabase :
  ¬ Spec.primaryUnusable supabase →
  ∃ rows, data (jobsQuery supabase) = Some rows
          ∧ loadJobs supabase = MkM [QueryJobs] (inr (jobRowOfJobs <$> rows, false)).
Proof.
  unfold Spec.primaryUnusable, loadJobs. rewrite bind_await.
  destruct (error (jobsQuery supabase)) as [e|]; [intros []; eauto|].
  destruct (data (jobsQuery supabase)) as [rows|]; [|intros []; eauto].
  intros _. exists rows. done.
Qed.

Lemma loadJobs_unusable supabase :
  Spec.primaryUnusable supabase →
  loadJobs supabase
  = MkM [QueryJobs; QueryJobPosts]
        match error (jobPostsQuery supabase) with
        | Some postsError => inl postsError
        | None => inr (jobRowOfPost <$> default [] (data (jobPostsQuery supabase)), true)
        end.
Proof.
  unfold Spec.primaryUnusable, loadJobs. rewrite bind_await.
  destruct (error (jobsQuery supabase)) as [e|];
    [|destruct (data (jobsQuery supabase)) as [rows|]; [intros [[? [=]]|[=]]|]];
    intros _; rewrite bind_await; by destruct (error (jobPostsQuery supabase)).
Qed.

Lemma loadJobs_inl supabase e :
  outcome (loadJobs supabase) = inl e ↔
  Spec.primaryUnusable supabase ∧ error (jobPostsQuery supabase) = Some e.
Proof.
  destruct (primaryUnusable_dec supabase) as [H|H].
  - rewrite (loadJobs_unusable _ H). simpl.
    destruct (error (jobPostsQuery supabase)); naive_solver.
  - destruct (loadJobs_usable _ H) as (rows & _ & ->). naive_solver.
Qed.

Lemma loadJobs_posts_queried supabase :
  QueryJobPosts ∈ trace (loadJobs supabase) ↔ Spec.primaryUnusable supabase.
Proof.
  destruct (primaryUnusable_dec supabase) as [H|H].
  - rewrite (loadJobs_unusable _ H). simpl. set_solver.
  - destruct (loadJobs_usable _ H) as (rows & _ & ->). simpl.
    rewrite list_elem_of_singleton. naive_solver.
Qed.

Lemma loadJobs_no_embed supabase texts : EmbedTexts texts ∉ trace (loadJobs supabase).
Proof.
  destruct (primaryUnusable_dec supabase) as [H|H].
  - rewrite (loadJobs_unusable _ H). simpl. set_solver.
  - destruct (loadJobs_usable _ H) as (rows & _ & ->). simpl. set_solver.
Qed.

Lemma foldM_trace_nil {A S} (f : S → A → M S) l s :
  (∀ s x, trace (f s x) = []) → trace (foldM f s l) = [].
Proof.
  intros Hf. revert s. induction l as [|x l IH]; intros s; simpl; [done|].
  apply trace_bind_nil; [apply Hf | apply IH].
Qed.

Lemma keywordRanking_returns profile jobs topN used :
  ∃ r, keywordRanking profile jobs topN used = MkM [] (inr r).
Proof. eexists. reflexivity. Qed.

Section CallFacts.
Variable embedTexts : nat → list string → Error + list EmbeddingVector.
Variable cosineSimilarity :
  option EmbeddingVector → option EmbeddingVector → Error + Q.

Lemma bulkScore_trace profiles jobs pes jes pIdx jIdx :
  trace (bulkScore cosineSimilarity profiles jobs pes jes pIdx jIdx) = [].
Proof.
  unfold bulkScore, callCosineSimilarity.
  apply trace_bind_nil; [done|]. intros base.
  apply trace_bind_nil; [by destruct (profiles !! pIdx) | done].
Qed.

Lemma bulkRankProfile_trace profiles jobs pes jes topN results pIdx :
  trace (bulkRankProfile cosineSimilarity profiles jobs pes jes topN results pIdx) = [].
Proof.
  unfold bulkRankProfile. apply trace_bind_nil; [|done].
  apply mapM_trace_nil. intros. apply bulkScore_trace.
Qed.

(** The calls of a bulk ranking whose rows have been fetched: the
    queries, then the two batches. *)
Lemma computeRecommendationsForAllUsers_fetched supabase topNArg f :
  outcome (fetchProfilesAndJobs supabase) = inr f →
  trace (computeRecommendationsForAllUsers embedTexts cosineSimilarity supabase topNArg)
  = trace (fetchProfilesAndJobs supabase)
    ++ [EmbedTexts (profileText <$> profiles f); EmbedTexts (jobText <$> jobs f)].
Proof.
  intros Hf. unfold computeRecommendationsForAllUsers.
  rewrite (bind_inr _ _ _ Hf). cbn [trace]. f_equal.
  unfold mbind at 1. unfold M_bind.
  destruct (outcome (promiseAll2 _ _)) as [e|[pes jes]]; [done|].
  cbn [trace]. rewrite trace_bind_nil; [done| |done].
  apply foldM_trace_nil. intros. apply bulkRankProfile_trace.
Qed.

Lemma computeRecommendationsForAllUsers_not_fetched supabase topNArg e :
  outcome (fetchProfilesAndJobs supabase) = inl e →
  computeRecommendationsForAllUsers embedTexts cosineSimilarity supabase topNArg
  = MkM (trace (fetchProfilesAndJobs supabase)) (inl e).
Proof.
  intros Hf. unfold computeRecommendationsForAllUsers. by rewrite (bind_inl _ _ _ Hf).
Qed.

Lemma fetchProfilesAndJobs_failed supabase e :
  error (profilesQuery supabase) = Some e →
  fetchProfilesAndJobs supabase = MkM [QueryProfiles] (inl e).
Proof. intros H. unfold fetchProfilesAndJobs. rewrite bind_await, H. done. Qed.

Lemma fetchProfilesAndJobs_ok supabase :
  error (profilesQuery supabase) = None →
  trace (fetchProfilesAndJobs supabase) = QueryProfiles :: trace (loadJobs supabase)
  ∧ outcome (fetchProfilesAndJobs supabase)
    = match outcome (loadJobs supabase) with
      | inl e => inl e
      | inr (jobs, used) =>
          inr {| profiles := default [] (data (profilesQuery supabase));
                 jobs := jobs; usedPostsFallback := used |}
      end.
Proof.
  intros H. unfold fetchProfilesAndJobs. rewrite bind_await, H.
  unfold mbind, M_bind. cbn [trace outcome].
  destruct (outcome (loadJobs supabase)) as [e|[jobs used]]; cbn [trace outcome];
    rewrite ?app_nil_r; done.
Qed.

(** The single-user call, case by case. *)
Lemma computeRecommendationsForUser_profile_error supabase userId topNArg e :
  error (profileQuery supabase userId) = Some e →
  computeRecommendationsForUser embedTexts cosineSimilarity supabase userId topNArg
  = MkM [QueryProfile userId] (inl e).
Proof. intros H. unfold computeRecommendationsForUser. rewrite bind_await, H. done. Qed.

Lemma computeRecommendationsForUser_load_failed supabase userId topNArg profile e :
  profileQuery supabase userId = {| data := Some profile; error := None |} →
  outcome (loadJobs supabase) = inl e →
  computeRecommendationsForUser embedTexts cosineSimilarity supabase userId topNArg
  = MkM (QueryProfile userId :: trace (loadJobs supabase)) (inl e).
Proof.
  intros Hp Hl. unfold computeRecommendationsForUser.
  rewrite bind_await, Hp. cbn [error data]. by rewrite (bind_inl _ _ _ Hl).
Qed.

Lemma tryCatch_keyword_returns profile jobs topN used :
  ∃ r, outcome (tryCatch (semanticRanking embedTexts cosineSimilarity profile jobs topN used)
                         (λ _, keywordRanking profile jobs topN used)) = inr r.
Proof.
  unfold tryCatch.
  destruct (outcome (semanticRanking _ _ _ _ _ _)) as [e|r] eqn:E; cbn [outcome]; eauto.
Qed.

End CallFacts.

(** X1. A single-user ranking throws only what the storage backend
    reports: the error of the profile query, or, with a stored profile
    and the primary jobs source unusable, the error of the job posts
    query.  Nothing the embedding service or the similarity function
    throws reaches the caller. *)
Theorem single_user_throws_only_storage_errors
    embedTexts cosineSimilarity supabase userId topNArg e :
  outcome (computeRecommendationsForUser embedTexts cosineSimilarity
             supabase userId topNArg) = inl e
  ↔ error (profileQuery supabase userId) = Some e
    ∨ (error (profileQuery supabase userId) = None
       ∧ is_Some (data (profileQuery supabase userId))
       ∧ Spec.primaryUnusable supabase
       ∧ error (jobPostsQuery supabase) = Some e).
Proof.
  destruct (error (profileQuery supabase userId)) as [e'|] eqn:He.
  { rewrite (computeRecommendationsForUser_profile_error _ _ _ _ _ _ He). simpl.
    naive_solver. }
  destruct (data (profileQuery supabase userId)) as [profile|] eqn:Hd.
  2:{ pose proof (query_eta _ _ _ Hd He) as Hq.
      unfold computeRecommendationsForUser. rewrite bind_await, Hq. simpl.
      split; [done|]. intros [[=]|(_ & [? [=]] & _)]. }
  pose proof (query_eta _ _ _ Hd He) as Hp.
  destruct (outcome (loadJobs supabase)) as [e'|[jobs used]] eqn:Hl.
  - rewrite (computeRecommendationsForUser_load_failed _ _ _ _ _ _ _ Hp Hl).
    cbn [outcome]. apply loadJobs_inl in Hl as [Hu Hposts]. split.
    + intros [= ->]. right. eauto.
    + intros [[=]|(_ & _ & _ & H)]. congruence.
  - assert (Hn : ∀ e0, outcome (loadJobs supabase) ≠ inl e0) by (intros; congruence).
    split.
    + destruct (decide (jobs = [])) as [->|Hj].
      * by rewrite (computeRecommendationsForUser_no_jobs _ _ _ _ _ _ _ Hp Hl).
      * rewrite (computeRecommendationsForUser_found _ _ _ _ _ _ _ _ Hp Hl Hj).
        cbn [outcome].
        destruct (tryCatch_keyword_returns embedTexts cosineSimilarity profile jobs
                    (default defaultTopN topNArg) used) as [r ->]. done.
    + intros [[=]|(_ & _ & Hu & Hposts)].
      exfalso. apply (Hn e). apply loadJobs_inl. done.
Qed.

(** X2. A storage error stops a bulk ranking before the embedding
    service is asked.  The error of the profiles query is thrown after
    that one query; with the profiles read and the primary jobs source
    unusable, the error of the job posts query is thrown after the three
    queries. *)
Theorem bulk_storage_errors_propagate embedTexts cosineSimilarity supabase topNArg e :
  (error (profilesQuery supabase) = Some e →
   computeRecommendationsForAllUsers embedTexts cosineSimilarity supabase topNArg
   = MkM [QueryProfiles] (inl e))
  ∧ (error (profilesQuery supabase) = None →
     Spec.primaryUnusable supabase →
     error (jobPostsQuery supabase) = Some e →
     computeRecommendationsForAllUsers embedTexts cosineSimilarity supabase topNArg
     = MkM [QueryProfiles; QueryJobs; QueryJobPosts] (inl e)).
Proof.
  split.
  - intros H. pose proof (fetchProfilesAndJobs_failed _ _ H) as Hf.
    rewrite (computeRecommendationsForAllUsers_not_fetched _ _ _ _ e); by rewrite Hf.
  - intros Hp Hu He.
    destruct (fetchProfilesAndJobs_ok _ Hp) as [Ht Ho].
    rewrite (loadJobs_unusable _ Hu), He in Ht, Ho. cbn [trace outcome] in Ht, Ho.
    rewrite (computeRecommendationsForAllUsers_not_fetched _ _ _ _ e Ho). by rewrite Ht.
Qed.

Lemma bulk_storage_errors_propagate_witness :
  computeRecommendationsForAllUsers Sample.embedTexts Sample.cosineSimilarity
    {| profilesQuery := Sample.answer [Sample.user];
       profileQuery := Sample.lookupUser;
       jobsQuery := Sample.failed "relation jobs does not exist";
       jobPostsQuery := Sample.failed "permission denied" |} None
  = MkM [QueryProfiles; QueryJobs; QueryJobPosts] (inl "permission denied").
Proof.
  apply bulk_storage_errors_propagate; [reflexivity | | reflexivity].
  left. by eexists.
Defined.

Lemma single_user_throws_only_storage_errors_witness :
  outcome (computeRecommendationsForUser Sample.embedTexts Sample.cosineSimilarity
             {| profilesQuery := Sample.answer [Sample.user];
                profileQuery := Sample.lookupUser;
                jobsQuery := Sample.failed "relation jobs does not exist";
                jobPostsQuery := Sample.failed "permission denied" |} "u1" None)
  = inl "permission denied".
Proof.
  apply single_user_throws_only_storage_errors. right.
  split; [reflexivity|]. split; [by eexists|]. split; [|reflexivity].
  left. by eexists.
Defined.

(** ** The calls of a ranking *)

Lemma foldM_inr_each {A S} (f : S → A → M S) l s s' x :
  outcome (foldM f s l) = inr s' → x ∈ l → ∃ s1 s2, outcome (f s1 x) = inr s2.
Proof.
  revert s. induction l as [|y l IH]; intros s; simpl.
  - intros _ H. by apply elem_of_nil in H.
  - intros (s1 & H1 & H)%outcome_bind_inr [->|Hx]%elem_of_cons; eauto.
Qed.

Lemma filter_isEmbedTexts_loadJobs supabase :
  List.filter Derived.isEmbedTexts (trace (loadJobs supabase)) = [].
Proof.
  destruct (primaryUnusable_dec supabase) as [H|H].
  - by rewrite (loadJobs_unusable _ H).
  - by destruct (loadJobs_usable _ H) as (rows & _ & ->).
Qed.

Section CallTraces.
Variable embedTexts : nat → list string → Error + list EmbeddingVector.
Variable cosineSimilarity :
  option EmbeddingVector → option EmbeddingVector → Error + Q.

Lemma tryCatch_trace profile jobs topN used :
  trace (tryCatch (semanticRanking embedTexts cosineSimilarity profile jobs topN used)
                  (λ _, keywordRanking profile jobs topN used))
  = [EmbedTexts [profileText profile]; EmbedTexts (jobText <$> jobs)]
    ++ match outcome (semanticRanking embedTexts cosineSimilarity profile jobs topN used) with
       | inl e => [Caught e]
       | inr _ => []
       end.
Proof.
  unfold tryCatch.
  destruct (outcome (semanticRanking _ _ _ _ _ _)) as [e|r] eqn:E; cbn [trace];
    rewrite semanticRanking_trace; done.
Qed.

Lemma bulk_trace_shape supabase topNArg :
  ∃ tail,
    trace (computeRecommendationsForAllUsers embedTexts cosineSimilarity supabase topNArg)
    = trace (fetchProfilesAndJobs supabase) ++ tail
    ∧ ∀ ev, ev ∈ tail → ∃ texts, ev = EmbedTexts texts.
Proof.
  destruct (outcome (fetchProfilesAndJobs supabase)) as [e|f] eqn:Hf.
  - rewrite (computeRecommendationsForAllUsers_not_fetched _ _ _ _ _ Hf).
    exists []. rewrite app_nil_r. split; [done|]. intros ev H. by apply elem_of_nil in H.
  - rewrite (computeRecommendationsForAllUsers_fetched _ _ _ _ _ Hf).
    eexists. split; [done|]. intros ev. rewrite !elem_of_cons, elem_of_nil.
    intros [->|[->|[]]]; eauto.
Qed.

Lemma fetch_trace_shape supabase :
  trace (fetchProfilesAndJobs supabase) = [QueryProfiles]
  ∨ (error (profilesQuery supabase) = None
     ∧ trace (fetchProfilesAndJobs supabase) = QueryProfiles :: trace (loadJobs supabase)).
Proof.
  destruct (error (profilesQuery supabase)) as [e|] eqn:He.
  - left. by rewrite (fetchProfilesAndJobs_failed _ _ He).
  - right. split; [done|]. by apply fetchProfilesAndJobs_ok.
Qed.

End CallTraces.

(** X3. The fallback posts source is queried exactly when the primary
    jobs source cannot be used: in a bulk ranking whose profiles query
    succeeded, and in a single-user ranking with a stored profile.  A
    jobs table that answers, even with no row, is never followed by a
    query of the posts. *)
Theorem posts_queried_iff_primary_unusable embedTexts cosineSimilarity supabase topNArg :
  (error (profilesQuery supabase) = None →
   QueryJobPosts ∈ trace (computeRecommendationsForAllUsers embedTexts
                            cosineSimilarity supabase topNArg)
   ↔ Spec.primaryUnusable supabase)
  ∧ (∀ userId profile,
       profileQuery supabase userId = {| data := Some profile; error := None |} →
       QueryJobPosts ∈ trace (computeRecommendationsForUser embedTexts
                                cosineSimilarity supabase userId topNArg)
       ↔ Spec.primaryUnusable supabase).
Proof.
  split.
  - intros Hp. rewrite <- loadJobs_posts_queried.
    destruct (bulk_trace_shape embedTexts cosineSimilarity supabase topNArg)
      as (tail & -> & Htail).
    destruct (fetchProfilesAndJobs_ok _ Hp) as [-> _].
    rewrite elem_of_app, elem_of_cons. split; [|auto].
    intros [[[=]|H]|H]; [done|]. by destruct (Htail _ H).
  - intros userId profile Hp. rewrite <- loadJobs_posts_queried.
    destruct (outcome (loadJobs supabase)) as [e|[jobs used]] eqn:Hl.
    + rewrite (computeRecommendationsForUser_load_failed _ _ _ _ _ _ _ Hp Hl).
      cbn [trace]. rewrite elem_of_cons. naive_solver.
    + destruct (decide (jobs = [])) as [->|Hj].
      * rewrite (computeRecommendationsForUser_no_jobs _ _ _ _ _ _ _ Hp Hl).
        cbn [trace]. rewrite elem_of_cons. naive_solver.
      * rewrite (computeRecommendationsForUser_found _ _ _ _ _ _ _ _ Hp Hl Hj).
        cbn [trace]. rewrite tryCatch_trace.
        rewrite elem_of_cons, !elem_of_app, !elem_of_cons, elem_of_nil.
        split; [|auto].
        intros [[=]|[H|[[[=]|[[=]|[]]]|H]]]; [done|].
        destruct (outcome (semanticRanking _ _ _ _ _ _));
          [apply list_elem_of_singleton in H; discriminate | by apply elem_of_nil in H].
Qed.

Lemma posts_queried_iff_primary_unusable_witness :
  QueryJobPosts ∉ trace (computeRecommendationsForUser Sample.embedTexts
                           Sample.cosineSimilarity Sample.emptyJobsTable "u1" None).
Proof.
  rewrite (proj2 (posts_queried_iff_primary_unusable Sample.embedTexts
                    Sample.cosineSimilarity Sample.emptyJobsTable None)
             "u1" Sample.user eq_refl).
  intros [[? [=]]|[=]].
Defined.

(** X4. A bulk ranking has no fallback: it never enters a [catch]
    clause, it fails when a batch of the embedding service fails, and
    when it returns both batches have answered and [cosineSimilarity]
    has returned for every pair of a profile vector and a job vector. *)
Theorem bulk_ranking_all_or_nothing embedTexts cosineSimilarity supabase topNArg :
  let call := computeRecommendationsForAllUsers embedTexts cosineSimilarity
                supabase topNArg in
  (∀ err, Caught err ∉ trace call)
  ∧ (∀ f, outcome (fetchProfilesAndJobs supabase) = inr f →
          isErr (embedTexts 0%nat (profileText <$> profiles f))
          ∨ isErr (embedTexts 1%nat (jobText <$> jobs f)) →
          isErr (outcome call))
  ∧ (∀ r, outcome call = inr r →
          ∃ f profileEmbeddings jobEmbeddings,
            outcome (fetchProfilesAndJobs supabase) = inr f
            ∧ embedTexts 0%nat (profileText <$> profiles f) = inr profileEmbeddings
            ∧ embedTexts 1%nat (jobText <$> jobs f) = inr jobEmbeddings
            ∧ ∀ pIdx jIdx,
                (pIdx < length profileEmbeddings)%nat →
                (jIdx < length jobEmbeddings)%nat →
                ∃ base, cosineSimilarity (profileEmbeddings !! pIdx)
                                         (jobEmbeddings !! jIdx) = inr base).
Proof.
  intros call. split; [|split].
  - intros err. subst call.
    destruct (bulk_trace_shape embedTexts cosineSimilarity supabase topNArg)
      as (tail & -> & Htail).
    rewrite elem_of_app. intros [H|H]; [|by destruct (Htail _ H)].
    destruct (fetch_trace_shape supabase) as [Ht|[_ Ht]]; rewrite Ht in H.
    + apply list_elem_of_singleton in H. discriminate.
    + apply elem_of_cons in H as [[=]|H]. by apply loadJobs_no_catch in H.
  - intros f Hf H. subst call.
    destruct (outcome (computeRecommendationsForAllUsers _ _ _ _)) as [e|r] eqn:E; [done|].
    apply computeRecommendationsForAllUsers_inr in E
      as (f' & pes & jes & Hf' & H0 & H1 & _).
    assert (f' = f) as -> by congruence.
    rewrite H0, H1 in H. by destruct H.
  - intros r Hr. subst call. unfold computeRecommendationsForAllUsers in Hr.
    apply outcome_bind_inr in Hr as (f & Hf & Hr).
    apply outcome_bind_inr in Hr as ([pes jes] & [H0 H1]%promiseAll2_embed_inr & Hr).
    apply outcome_bind_inr in Hr as (results & Hr & _).
    exists f, pes, jes. repeat (split; [done|]). intros pIdx jIdx Hp Hj.
    destruct (foldM_inr_each _ _ _ _ pIdx Hr) as (s1 & s2 & Hstep).
    { apply elem_of_seq. lia. }
    unfold bulkRankProfile in Hstep.
    apply outcome_bind_inr in Hstep as (scores & Hs%mapM_inr & _).
    destruct (Forall2_lookup_l _ _ _ jIdx jIdx Hs) as (c & _ & Hc).
    { apply lookup_seq. lia. }
    apply bulkScore_inr in Hc as (p & base & _ & Hb & _). eauto.
Qed.

Lemma bulk_ranking_all_or_nothing_witness :
  isErr (outcome (computeRecommendationsForAllUsers Sample.embedTextsDown
                    Sample.cosineSimilarity Sample.postsOnly None)).
Proof.
  eapply (proj1 (proj2 (bulk_ranking_all_or_nothing Sample.embedTextsDown
                          Sample.cosineSimilarity Sample.postsOnly None))).
  - reflexivity.
  - left. exact I.
Defined.

(** X5. The embedding service is asked in two batches, whatever the
    number of profiles and jobs: a bulk ranking whose rows have been
    fetched sends the texts of all profiles, then the texts of all jobs;
    a single-user ranking with a stored profile and a job list that is
    not empty sends the text of the profile, then the texts of all
    jobs. *)
Theorem embedding_service_asked_in_two_batches embedTexts cosineSimilarity supabase topNArg :
  (∀ f, outcome (fetchProfilesAndJobs supabase) = inr f →
        List.filter Derived.isEmbedTexts
          (trace (computeRecommendationsForAllUsers embedTexts cosineSimilarity
                    supabase topNArg))
        = [EmbedTexts (profileText <$> profiles f); EmbedTexts (jobText <$> jobs f)])
  ∧ (∀ userId profile jobs used,
       profileQuery supabase userId = {| data := Some profile; error := None |} →
       outcome (loadJobs supabase) = inr (jobs, used) →
       jobs ≠ [] →
       List.filter Derived.isEmbedTexts
         (trace (computeRecommendationsForUser embedTexts cosineSimilarity
                   supabase userId topNArg))
       = [EmbedTexts [profileText profile]; EmbedTexts (jobText <$> jobs)]).
Proof.
  split.
  - intros f Hf. rewrite (computeRecommendationsForAllUsers_fetched _ _ _ _ _ Hf).
    rewrite List.filter_app.
    destruct (fetch_trace_shape supabase) as [->|[_ ->]]; [done|].
    cbn [List.filter Derived.isEmbedTexts]. by rewrite filter_isEmbedTexts_loadJobs.
  - intros userId profile jobs used Hp Hl Hj.
    rewrite (computeRecommendationsForUser_found _ _ _ _ _ _ _ _ Hp Hl Hj).
    cbn [trace]. rewrite tryCatch_trace. cbn [List.filter Derived.isEmbedTexts].
    rewrite !List.filter_app, filter_isEmbedTexts_loadJobs.
    by destruct (outcome (semanticRanking _ _ _ _ _ _)).
Qed.

Lemma embedding_service_asked_in_two_batches_witness :
  List.filter Derived.isEmbedTexts
    (trace (computeRecommendationsForUser Sample.embedTexts Sample.cosineSimilarity
              Sample.jobsTable "u1" None))
  = [EmbedTexts [profileText Sample.user];
     EmbedTexts (jobText <$> (jobRowOfJobs <$> [Sample.javaJob; Sample.pythonJob; Sample.javaJob]))].
Proof.
  apply (proj2 (embedding_service_asked_in_two_batches Sample.embedTexts
                  Sample.cosineSimilarity Sample.jobsTable None)
           "u1" Sample.user _ false); [reflexivity | reflexivity | discriminate].
Defined.

(** X6. With a stored profile and an empty job list the single-user
    ranking returns [{ results: [], usedPostsFallback }] with the flag
    of the loader, and the embedding service is not asked. *)
Theorem single_user_no_jobs_short_circuit
    embedTexts cosineSimilarity supabase userId topNArg profile used :
  profileQuery supabase userId = {| data := Some profile; error := None |} →
  outcome (loadJobs supabase) = inr ([], used) →
  let call := computeRecommendationsForUser embedTexts cosineSimilarity
                supabase userId topNArg in
  outcome call = inr {| userResults := []; userUsedPostsFallback := used |}
  ∧ ∀ texts, EmbedTexts texts ∉ trace call.
Proof.
  intros Hp Hl call. subst call.
  rewrite (computeRecommendationsForUser_no_jobs _ _ _ _ _ _ _ Hp Hl).
  split; [done|]. intros texts. cbn [trace]. rewrite elem_of_cons.
  intros [[=]|H]. by apply loadJobs_no_embed in H.
Qed.

Lemma single_user_no_jobs_short_circuit_witness :
  outcome (computeRecommendationsForUser Sample.embedTextsDown Sample.cosineSimilarity
             Sample.emptyJobsTable "u1" None)
  = inr {| userResults := []; userUsedPostsFallback := false |}.
Proof.
  apply (single_user_no_jobs_short_circuit Sample.embedTextsDown
           Sample.cosineSimilarity Sample.emptyJobsTable "u1" None Sample.user false);
    reflexivity.
Defined.

(** ** Strings *)

Lemma string_app_cons c (a b : string) : String c a +:+ b = String c (a +:+ b).
Proof. done. Qed.

Lemma string_app_assoc (a b c : string) : (a +:+ b) +:+ c = a +:+ (b +:+ c).
Proof. induction a as [|x a IH]; [done | by rewrite !string_app_cons, IH]. Qed.

Lemma string_app_nil_r (a : string) : a +:+ "" = a.
Proof. induction a as [|x a IH]; [done | by rewrite string_app_cons, IH]. Qed.

Lemma lowerChar_idemp c : JS.lowerChar (JS.lowerChar c) = JS.lowerChar c.
Proof. destruct c as [[] [] [] [] [] [] [] []]; reflexivity. Qed.

Lemma isWhiteSpace_lowerChar c : JS.isWhiteSpace (JS.lowerChar c) = JS.isWhiteSpace c.
Proof. destruct c as [[] [] [] [] [] [] [] []]; reflexivity. Qed.

Lemma toLowerCase_idemp s : JS.toLowerCase (JS.toLowerCase s) = JS.toLowerCase s.
Proof. induction s as [|c s IH]; simpl; [done | by rewrite lowerChar_idemp, IH]. Qed.

Lemma truthyStr_toLowerCase s : JS.truthyStr (JS.toLowerCase s) = JS.truthyStr s.
Proof. by destruct s. Qed.

Lemma toLowerCase_app a b :
  JS.toLowerCase (a +:+ b) = JS.toLowerCase a +:+ JS.toLowerCase b.
Proof.
  induction a as [|c a IH]; [done|]. rewrite string_app_cons. simpl.
  by rewrite string_app_cons, IH.
Qed.

Lemma toLowerCase_join l :
  JS.toLowerCase (JS.join " " l) = JS.join " " (JS.toLowerCase <$> l).
Proof.
  induction l as [|x l IH]; [done|].
  destruct l as [|y l]; [done|].
  change (JS.join " " (x :: y :: l)) with (x +:+ " " +:+ JS.join " " (y :: l)).
  rewrite !toLowerCase_app, IH. done.
Qed.

Lemma noWhiteSpace_toLowerCase s :
  Derived.noWhiteSpace (JS.toLowerCase s) = Derived.noWhiteSpace s.
Proof.
  induction s as [|c s IH]; simpl; [done | by rewrite isWhiteSpace_lowerChar, IH].
Qed.

Lemma plainName_toLowerCase s :
  Derived.plainName (JS.toLowerCase s) = Derived.plainName s.
Proof.
  unfold Derived.plainName.
  by rewrite truthyStr_toLowerCase, noWhiteSpace_toLowerCase.
Qed.

(** ** Splitting what was joined *)

Section SplitJoin.
Variable sep : ascii → bool.
Hypothesis sep_space : sep " "%char = true.

Local Abbreviation word := (λ s, JS.truthyStr s && Derived.allChars (λ c, negb (sep c)) s).

Lemma splitRunsGo_word piece cur inRun rest :
  Derived.allChars (λ c, negb (sep c)) piece = true →
  JS.splitRunsGo sep cur inRun (piece +:+ rest)
  = JS.splitRunsGo sep (cur +:+ piece)
      (if JS.truthyStr piece then false else inRun) rest.
Proof.
  revert cur inRun. induction piece as [|c piece IH]; intros cur inRun.
  - intros _. by rewrite string_app_nil_r.
  - rewrite string_app_cons. simpl.
    intros [Hc Hp]%andb_true_iff. apply negb_true_iff in Hc. rewrite Hc.
    rewrite IH by done.
    replace ((cur +:+ String c "") +:+ piece) with (cur +:+ String c piece)
      by (by rewrite string_app_assoc).
    by destruct (JS.truthyStr piece).
Qed.

Lemma splitRunsGo_space cur rest :
  List.filter JS.truthyStr (JS.splitRunsGo sep cur false (String " " rest))
  = List.filter JS.truthyStr [cur]
    ++ List.filter JS.truthyStr (JS.splitRunsGo sep "" true rest).
Proof. simpl. rewrite sep_space. simpl. by destruct (JS.truthyStr cur). Qed.

Lemma split_join_words names inRun :
  Forall (λ name, word name = true) names →
  List.filter JS.truthyStr (JS.splitRunsGo sep "" inRun (JS.join " " names)) = names.
Proof.
  intros H. revert inRun. induction H as [|x l Hx Hl IH]; intros inRun; [done|].
  apply andb_true_iff in Hx as [Hx1 Hx2].
  destruct l as [|y l].
  - change (JS.join " " [x]) with x.
    replace (JS.splitRunsGo sep "" inRun x)
      with (JS.splitRunsGo sep "" inRun (x +:+ ""))
      by (by rewrite string_app_nil_r).
    rewrite splitRunsGo_word by done.
    change (List.filter JS.truthyStr [x] = [x]). simpl. by rewrite Hx1.
  - change (JS.join " " (x :: y :: l)) with (x +:+ String " " (JS.join " " (y :: l))).
    rewrite splitRunsGo_word by done. rewrite Hx1.
    change ("" +:+ x) with x. rewrite splitRunsGo_space. simpl.
    rewrite Hx1. simpl. f_equal. apply IH.
Qed.

(** Two joined lists of words, set side by side with a space, split into
    the words of both. *)
Lemma split_two_joins names1 names2 inRun :
  Forall (λ name, word name = true) names1 →
  Forall (λ name, word name = true) names2 →
  List.filter JS.truthyStr
    (JS.splitRunsGo sep "" inRun (JS.join " " names1 +:+ " " +:+ JS.join " " names2))
  = names1 ++ names2.
Proof.
  intros H1 H2. revert inRun. induction H1 as [|x l Hx Hl IH]; intros inRun.
  - change (JS.join " " [] +:+ " " +:+ JS.join " " names2)
      with (String " " (JS.join " " names2)).
    simpl. rewrite sep_space.
    destruct inRun; simpl; by apply split_join_words.
  - apply andb_true_iff in Hx as [Hx1 Hx2].
    destruct l as [|y l].
    + change (JS.join " " [x] +:+ " " +:+ JS.join " " names2)
        with (x +:+ String " " (JS.join " " names2)).
      rewrite splitRunsGo_word by done. rewrite Hx1.
      change ("" +:+ x) with x. rewrite splitRunsGo_space. simpl.
      rewrite Hx1. simpl. f_equal. by apply split_join_words.
    + replace (JS.join " " (x :: y :: l) +:+ " " +:+ JS.join " " names2)
        with (x +:+ String " " (JS.join " " (y :: l) +:+ " " +:+ JS.join " " names2)).
      2:{ change (JS.join " " (x :: y :: l)) with (x +:+ " " +:+ JS.join " " (y :: l)).
          by rewrite !string_app_assoc. }
      rewrite splitRunsGo_word by done. rewrite Hx1.
      change ("" +:+ x) with x. rewrite splitRunsGo_space. simpl.
      rewrite Hx1. simpl. f_equal. apply IH.
Qed.

End SplitJoin.

Lemma noWhiteSpace_allChars s :
  Derived.noWhiteSpace s = Derived.allChars (λ c, negb (JS.isWhiteSpace c)) s.
Proof. induction s as [|c s IH]; [done|]. simpl. by rewrite IH. Qed.

(** Joining plain names with spaces and splitting at white space gives
    the names back. *)
Lemma split_join_plain names inRun :
  Forall (λ name, Derived.plainName name = true) names →
  List.filter JS.truthyStr
    (JS.splitRunsGo JS.isWhiteSpace "" inRun (JS.join " " names)) = names.
Proof.
  intros H. apply (split_join_words JS.isWhiteSpace eq_refl).
  eapply Forall_impl; [exact H|]. intros name. unfold Derived.plainName.
  by rewrite noWhiteSpace_allChars.
Qed.

(** ** The accessibility text and the feature set *)

Lemma pushTruthyKeys_flagNames features source :
  pushTruthyKeys features source = MkM [] (inr (features ++ Derived.flagNames source)).
Proof.
  unfold pushTruthyKeys.
  destruct source as [| |b|n|s|items|fields]; cbn [truthy typeofObject Derived.flagNames];
    rewrite ?andb_false_r, ?app_nil_r; done.
Qed.

(** The text is the names of the truthy flags, joined by spaces. *)
Lemma jobAccessibilityToText_flagNames job :
  jobAccessibilityToText job = JS.join " " (Derived.jobFlagNames job).
Proof.
  unfold jobAccessibilityToText, jobAccessibilityToTextM, Derived.jobFlagNames.
  rewrite optGet_meta_nested, pushTruthyKeys_flagNames.
  unfold mbind, M_bind. cbn [outcome trace].
  rewrite pushTruthyKeys_flagNames. done.
Qed.

Lemma enabledFeatures_plain job :
  Forall (λ name, Derived.plainName name = true) (Derived.jobFlagNames job) →
  enabledFeatures job = list_to_set (JS.toLowerCase <$> Derived.jobFlagNames job).
Proof.
  intros H. unfold enabledFeatures, JS.splitRuns.
  rewrite jobAccessibilityToText_flagNames, toLowerCase_join.
  rewrite split_join_plain; [done|].
  apply Forall_fmap. eapply Forall_impl; [exact H|].
  intros name Hn. simpl. by rewrite plainName_toLowerCase.
Qed.

Lemma enabledFeatures_no_flags job :
  Derived.jobFlagNames job = [] → enabledFeatures job = ∅.
Proof.
  intros H. unfold enabledFeatures.
  rewrite jobAccessibilityToText_flagNames, H. done.
Qed.

(** X7. The feature names survive the trip through the space-separated
    text: for a job whose truthy flags have names without white space,
    the feature set the scorer consults holds exactly the lower-cased
    names of the truthy flags of both locations. *)
Theorem enabled_features_are_lowercased_flag_names job feature :
  Forall (λ name, Derived.plainName name = true) (Derived.jobFlagNames job) →
  has (enabledFeatures job) feature = true
  ↔ ∃ name, name ∈ Derived.jobFlagNames job ∧ JS.toLowerCase name = feature.
Proof.
  intros H. rewrite (enabledFeatures_plain _ H). unfold has.
  rewrite bool_decide_eq_true, elem_of_list_to_set, list_elem_of_fmap.
  naive_solver.
Qed.

Lemma enabled_features_are_lowercased_flag_names_witness :
  has (enabledFeatures (jobRowOfPost Sample.pythonPost)) "screenreadersupport" = true.
Proof.
  apply enabled_features_are_lowercased_flag_names.
  - repeat constructor.
  - exists "screenReaderSupport". split; [left | reflexivity].
Defined.

(** X8. A job without a truthy accessibility flag earns no boost,
    whatever the needs: flags that are absent, not an object, or all
    set to a falsy value leave the text empty and the boost 0. *)
Theorem no_truthy_flag_no_boost job needs :
  Derived.jobFlagNames job = [] →
  jobAccessibilityToText job = "" ∧ computeAccessibilityBoost needs job = 0%Q.
Proof.
  intros H. split.
  - by rewrite jobAccessibilityToText_flagNames, H.
  - unfold computeAccessibilityBoost. destruct needs as [needs|]; [|done].
    destruct (length needs =? 0)%nat; [done|].
    by rewrite (enabledFeatures_no_flags _ H).
Qed.

Lemma no_truthy_flag_no_boost_witness :
  computeAccessibilityBoost (Some ["visual"; "hearing"])
    {| job_id := "j"; title := None; description := None; content := None;
       job_metadata :=
         VObject [("accessibility_features",
                   VObject [("screenReaderSupport", VBool false);
                            ("signLanguageSupport", VNull)])];
       accessibility_features := VObject [("remoteWork", VNum 0)] |}
  = 0%Q.
Proof. apply no_truthy_flag_no_boost. reflexivity. Defined.

(** ** What the boost depends on *)

Lemma credit_lower_eq tokens a b :
  JS.toLowerCase a = JS.toLowerCase b → Spec.credit tokens a = Spec.credit tokens b.
Proof. intros H. unfold Spec.credit. by rewrite H. Qed.

Lemma credit_empty_need tokens : Spec.credit tokens "" = 0%Q.
Proof. done. Qed.

Lemma sum_credits_lower_eq tokens needs needs' :
  Forall2 (λ a b, JS.toLowerCase a = JS.toLowerCase b) needs needs' →
  foldr (λ need total, (Spec.credit tokens need + total)%Q) 0%Q needs
  = foldr (λ need total, (Spec.credit tokens need + total)%Q) 0%Q needs'.
Proof.
  induction 1 as [|a b l l' Hab _ IH]; simpl; [done|].
  by rewrite IH, (credit_lower_eq _ _ _ Hab).
Qed.

Lemma sum_credits_Permutation tokens needs needs' :
  needs ≡ₚ needs' →
  (foldr (λ need total, Spec.credit tokens need + total) 0 needs
   == foldr (λ need total, Spec.credit tokens need + total) 0 needs')%Q.
Proof.
  induction 1 as [|x l l' _ IH|x y l|l1 l2 l3 _ IH1 _ IH2]; simpl.
  - reflexivity.
  - by rewrite IH.
  - lra.
  - by rewrite IH1.
Qed.

Lemma sum_credits_filter tokens needs :
  (foldr (λ need total, Spec.credit tokens need + total) 0
         (List.filter JS.truthyStr needs)
   == foldr (λ need total, Spec.credit tokens need + total) 0 needs)%Q.
Proof.
  induction needs as [|need needs IH]; simpl; [reflexivity|].
  destruct need as [|c need]; simpl.
  - rewrite IH. change (Spec.credit tokens "") with 0%Q. lra.
  - by rewrite IH.
Qed.

Lemma enabledFeatures_lower_eq job job' :
  JS.toLowerCase (jobAccessibilityToText job)
  = JS.toLowerCase (jobAccessibilityToText job') →
  enabledFeatures job = enabledFeatures job'.
Proof. intros H. unfold enabledFeatures. by rewrite H. Qed.

(** The credit of a need is 0, a half or 1. *)
Lemma credit_halves tokens need :
  ∃ h : nat, (h ≤ 2)%nat ∧ (Spec.credit tokens need == inject_Z (Z.of_nat h) * (1 # 2))%Q.
Proof.
  unfold Spec.credit.
  destruct (JS.truthyStr _); [|exists 0%nat; split; [lia | reflexivity]].
  destruct (Spec.classify _ _) as [features|].
  - destruct (existsb _ _); [exists 2%nat | exists 0%nat]; split; try lia; reflexivity.
  - case_decide; [exists 0%nat | exists 1%nat]; split; try lia; reflexivity.
Qed.

Lemma matchCount_halves needs job :
  ∃ h : nat, (Spec.matchCount needs job == inject_Z (Z.of_nat h) * (1 # 2))%Q.
Proof.
  unfold Spec.matchCount. induction (default [] needs) as [|need l [h IH]]; simpl.
  - exists 0%nat. reflexivity.
  - destruct (credit_halves (enabledFeatures job) need) as (k & _ & Hk).
    exists (k + h)%nat. rewrite Hk, IH, Nat2Z.inj_add, inject_Z_plus. lra.
Qed.

(** X9. The boost does not depend on letter case: needs that differ
    only in the case of their letters, against jobs whose accessibility
    texts differ only in case, earn the same boost. *)
Theorem boost_ignores_letter_case needs needs' job job' :
  Forall2 (λ a b, JS.toLowerCase a = JS.toLowerCase b) needs needs' →
  JS.toLowerCase (jobAccessibilityToText job)
  = JS.toLowerCase (jobAccessibilityToText job') →
  (computeAccessibilityBoost (Some needs) job
   == computeAccessibilityBoost (Some needs') job')%Q.
Proof.
  intros Hn Hj. rewrite !computeAccessibilityBoost_formula.
  unfold Spec.matchCount. cbn [default].
  rewrite (enabledFeatures_lower_eq _ _ Hj), (sum_credits_lower_eq _ _ _ Hn).
  reflexivity.
Qed.

Lemma boost_ignores_letter_case_witness :
  (computeAccessibilityBoost (Some ["VISUAL"; "Hearing"]) (jobRowOfPost Sample.pythonPost)
   == computeAccessibilityBoost (Some ["visual"; "hearing"]) (jobRowOfPost Sample.pythonPost))%Q.
Proof.
  apply boost_ignores_letter_case; [|reflexivity].
  repeat constructor.
Defined.

(** X10. The boost does not depend on the order of the needs. *)
Theorem boost_ignores_order_of_needs needs needs' job :
  needs ≡ₚ needs' →
  (computeAccessibilityBoost (Some needs) job
   == computeAccessibilityBoost (Some needs') job)%Q.
Proof.
  intros H. rewrite !computeAccessibilityBoost_formula.
  unfold Spec.boostOfCount, Spec.matchCount. cbn [default].
  by rewrite (sum_credits_Permutation _ _ _ H).
Qed.

Lemma boost_ignores_order_of_needs_witness :
  (computeAccessibilityBoost (Some ["visual"; "other"]) (jobRowOfPost Sample.pythonPost)
   == computeAccessibilityBoost (Some ["other"; "visual"]) (jobRowOfPost Sample.pythonPost))%Q.
Proof. apply boost_ignores_order_of_needs. apply Permutation_swap. Defined.

(** X11. Empty strings among the needs change nothing: the boost of a
    needs list is the boost of the list without its empty entries (a
    list of empty entries only earns 0). *)
Theorem boost_ignores_empty_needs needs job :
  (computeAccessibilityBoost (Some (List.filter JS.truthyStr needs)) job
   == computeAccessibilityBoost (Some needs) job)%Q.
Proof.
  rewrite !computeAccessibilityBoost_formula.
  unfold Spec.boostOfCount, Spec.matchCount. cbn [default].
  by rewrite (sum_credits_filter (enabledFeatures job) needs).
Qed.

(** X12. The match count is a whole number of halves, and the boost
    sits at its cap 0.2 exactly when the count has reached 4. *)
Theorem boost_at_cap_iff_four_matches needs job :
  ∃ h : nat, (Spec.matchCount needs job == inject_Z (Z.of_nat h) * (1 # 2))%Q
             ∧ ((computeAccessibilityBoost needs job == 0.2)%Q ↔ (8 ≤ h)%nat).
Proof.
  destruct (matchCount_halves needs job) as [h Hh].
  exists h. split; [done|].
  rewrite computeAccessibilityBoost_formula. unfold Spec.boostOfCount. rewrite Hh.
  destruct (le_lt_dec 8 h) as [H|H].
  - split; [done|]. intros _. rewrite Q.min_l; [reflexivity|].
    assert (inject_Z 8 <= inject_Z (Z.of_nat h))%Q by (rewrite <- Zle_Qle; lia).
    change (inject_Z 8) with 8%Q in *. lra.
  - split; [|lia]. intros Heq. exfalso.
    assert (inject_Z (Z.of_nat h) <= inject_Z 7)%Q by (rewrite <- Zle_Qle; lia).
    change (inject_Z 7) with 7%Q in *.
    rewrite Q.min_r in Heq; lra.
Qed.

(** ** The ranked lists, as a slice of the sorted scores *)

Section SortMore.
Context {A : Type} (key : A → Q).
Local Abbreviation cmpKey := (λ a b : A, (key b - key a)%Q).

Lemma insertBy_front x l :
  Forall (λ y, (key y <= key x)%Q) l → JS.insertBy cmpKey x l = x :: l.
Proof.
  destruct 1 as [|y l Hy _]; [done|]. simpl.
  by rewrite (proj2 (cmp_le key x y) Hy).
Qed.

(** Sorting a list that is sorted changes nothing. *)
Lemma sort_of_sorted l :
  StronglySorted (Spec.descending key) l → JS.sort cmpKey l = l.
Proof.
  induction 1 as [|x l _ IH Hx]; [done|].
  unfold JS.sort in *. simpl. rewrite IH. by apply insertBy_front.
Qed.


Lemma slice0_all (l : list A) e : (Z.of_nat (length l) ≤ e)%Z → JS.slice0 l e = l.
Proof.
  intros H. unfold JS.slice0.
  destruct (Z.ltb_spec e 0); [lia|]. apply take_ge. lia.
Qed.

Lemma slice0_fmap {B} (f : A → B) (l : list A) e :
  f <$> JS.slice0 l e = JS.slice0 (f <$> l) e.
Proof. unfold JS.slice0. by rewrite fmap_take, length_fmap. Qed.


End SortMore.

Section Ranked.
Variable embedTexts : nat → list string → Error + list EmbeddingVector.
Variable cosineSimilarity :
  option EmbeddingVector → option EmbeddingVector → Error + Q.

(** A single-user ranking with a stored profile returns a slice of the
    sorted scores of the loaded jobs. *)
Lemma computeRecommendationsForUser_ranked supabase userId topNArg profile jobs used r :
  data (profileQuery supabase userId) = Some profile →
  outcome (loadJobs supabase) = inr (jobs, used) →
  outcome (computeRecommendationsForUser embedTexts cosineSimilarity
             supabase userId topNArg) = inr r →
  ∃ scored,
    job <$> scored = jobs
    ∧ userResults r
      = JS.slice0 (JS.sort (λ a b, jobScore b - jobScore a)%Q scored)
                  (default defaultTopN topNArg).
Proof.
  intros Hd Hl Hr.
  apply computeRecommendationsForUser_inr in Hr as [_ Hr].
  destruct Hr as [[Hn _]|(profile' & jobs' & used' & _ & Hl' & Hr)]; [congruence|].
  assert (jobs' = jobs) as -> by congruence.
  destruct Hr as [[-> ->]|[[_ Hr]|(_ & _ & Hr)]].
  - exists []. split; [done|]. unfold JS.slice0, JS.sort. cbn [foldr userResults].
    by rewrite take_nil.
  - apply semanticRanking_inr in Hr as (pvs & jes & scored & _ & _ & Hs & ->).
    exists scored. split; [by eapply semantic_scored_jobs | done].
  - injection Hr as <-. eexists. split; [apply keyword_scored_jobs | done].
Qed.

(** The same for a list of the bulk ranking, the embedding service
    returning one vector per text. *)
Lemma computeRecommendationsForAllUsers_ranked supabase topNArg r :
  Spec.oneVectorPerText embedTexts →
  outcome (computeRecommendationsForAllUsers embedTexts cosineSimilarity
             supabase topNArg) = inr r →
  ∃ f, outcome (fetchProfilesAndJobs supabase) = inr f
       ∧ ∀ pid l, bulkResults r !! pid = Some l →
           ∃ scored,
             jobId <$> scored = Some ∘ job_id <$> jobs f
             ∧ l = JS.slice0 (JS.sort (λ a b, score b - score a)%Q scored)
                             (default defaultTopN topNArg).
Proof.
  intros Hone Hr.
  apply computeRecommendationsForAllUsers_inr in Hr
    as (f & pes & jes & Hf & _ & H1 & _ & H).
  exists f. split; [done|]. intros pid l Hl.
  destruct (H pid l Hl) as (pIdx & scores & Hs & ->).
  exists scores. split; [|done].
  apply Hone in H1. rewrite length_fmap in H1.
  apply mapM_inr in Hs. apply list_eq. intros i.
  rewrite !list_lookup_fmap.
  destruct (scores !! i) as [c|] eqn:Ec; simpl.
  - destruct (Forall2_lookup_r _ _ _ _ _ Hs Ec) as (jIdx & Hi & Hb).
    apply lookup_seq in Hi as [-> Hlt]. simpl in Hb.
    apply bulkScore_inr in Hb as (p & base & _ & _ & ->). cbn [jobId].
    rewrite list_lookup_fmap.
    destruct (lookup_lt_is_Some_2 (jobs f) i) as [j Hj]; [lia|]. by rewrite Hj.
  - apply Forall2_length in Hs. rewrite length_seq in Hs.
    apply lookup_ge_None in Ec.
    rewrite (proj2 (lookup_ge_None (jobs f) i)); [done | lia].
Qed.

End Ranked.



(** X14. With a [topN] of at least the number of jobs no job is lost or
    repeated: the jobs of a single-user ranking are a rearrangement of
    the loaded jobs, and the job ids of every list of a bulk ranking are
    a rearrangement of the ids of the loaded jobs (the embedding service
    returning one vector per text). *)
Theorem full_ranking_rearranges_jobs embedTexts cosineSimilarity supabase topNArg :
  (∀ userId profile jobs used r,
     data (profileQuery supabase userId) = Some profile →
     outcome (loadJobs supabase) = inr (jobs, used) →
     (Z.of_nat (length jobs) ≤ default defaultTopN topNArg)%Z →
     outcome (computeRecommendationsForUser embedTexts cosineSimilarity
                supabase userId topNArg) = inr r →
     job <$> userResults r ≡ₚ jobs)
  ∧ (Spec.oneVectorPerText embedTexts →
     ∀ r f, outcome (computeRecommendationsForAllUsers embedTexts cosineSimilarity
                       supabase topNArg) = inr r →
            outcome (fetchProfilesAndJobs supabase) = inr f →
            (Z.of_nat (length (jobs f)) ≤ default defaultTopN topNArg)%Z →
            ∀ pid l, bulkResults r !! pid = Some l →
                     jobId <$> l ≡ₚ Some ∘ job_id <$> jobs f).
Proof.
  split.
  - intros userId profile jobs used r Hd Hl Hn Hr.
    destruct (computeRecommendationsForUser_ranked _ _ _ _ _ _ _ _ _ Hd Hl Hr)
      as (scored & <- & ->).
    rewrite length_fmap in Hn.
    rewrite slice0_all by (by rewrite (length_sort jobScore)).
    by rewrite (sort_Permutation jobScore).
  - intros Hone r f Hr Hf Hn pid l Hl.
    destruct (computeRecommendationsForAllUsers_ranked _ _ _ _ _ Hone Hr)
      as (f' & Hf' & H).
    assert (f' = f) as -> by congruence.
    destruct (H pid l Hl) as (scored & Hj & ->). rewrite <- Hj.
    assert (length scored = length (jobs f)) as Hlen.
    { by rewrite <- (length_fmap jobId scored), Hj, length_fmap. }
    rewrite slice0_all by (rewrite (length_sort score); lia).
    by rewrite (sort_Permutation score).
Qed.

Lemma full_ranking_rearranges_jobs_witness :
  ∃ r, outcome (computeRecommendationsForUser Sample.embedTexts Sample.cosineSimilarity
                  Sample.postsOnly "u1" None) = inr r
       ∧ job <$> userResults r
         ≡ₚ jobRowOfPost <$> [Sample.javaPost; Sample.pythonPost; Sample.goPost].
Proof.
  eexists. split; [vm_compute; reflexivity|].
  apply (proj1 (full_ranking_rearranges_jobs Sample.embedTexts Sample.cosineSimilarity
                  Sample.postsOnly None) "u1" Sample.user _ true _ eq_refl eq_refl);
    [vm_compute; discriminate | reflexivity].
Defined.



(** ** Scores *)

Lemma boost_bounds needs job :
  (0 <= computeAccessibilityBoost needs job <= 0.2)%Q.
Proof.
  rewrite computeAccessibilityBoost_formula. unfold Spec.boostOfCount. split.
  - apply Q.min_glb; [lra|]. pose proof (matchCount_nonneg needs job). lra.
  - apply Q.le_min_l.
Qed.

Lemma keywordOverlapCount_bound tokens text :
  (Spec.keywordOverlapCount tokens text ≤ length tokens)%nat.
Proof.
  unfold Spec.keywordOverlapCount.
  induction tokens as [|w tokens IH]; simpl; [done|].
  destruct (JS.includes text w); simpl; lia.
Qed.



(** X17. A keyword score is never negative and is at most the number of
    profile tokens plus 4, the rescaled cap of the boost. *)
Theorem keywordScore_bounds profile j :
  (0 <= keywordScore profile j
   <= inject_Z (Z.of_nat (length (keywordTokens profile))) + 4)%Q.
Proof.
  pose proof (keywordScore_spec profile j) as H. unfold Spec.keywordScoreOf in H.
  cbn [job jobScore] in H. rewrite H.
  pose proof (boost_bounds (accessibility_needs profile) j) as [Hb0 Hb1].
  pose proof (keywordOverlapCount_bound (keywordTokens profile) (keywordText j)) as Hc.
  assert (0 <= inject_Z (Z.of_nat (Spec.keywordOverlapCount (keywordTokens profile)
                                     (keywordText j))))%Q as H0.
  { change 0%Q with (inject_Z 0). rewrite <- Zle_Qle. lia. }
  assert (inject_Z (Z.of_nat (Spec.keywordOverlapCount (keywordTokens profile)
                                (keywordText j)))
          <= inject_Z (Z.of_nat (length (keywordTokens profile))))%Q as H1.
  { rewrite <- Zle_Qle. lia. }
  split; lra.
Qed.

(** ** The keyword fallback with nothing to match *)

Lemma keywordScore_nothing_to_match profile j :
  keywordTokens profile = [] →
  accessibility_needs profile = None →
  keywordScore profile j = (0 + 0 * 20)%Q.
Proof. intros Ht Hn. unfold keywordScore. rewrite Ht, Hn. done. Qed.

Lemma keywordRanking_nothing_to_match profile jobs topN used r :
  keywordTokens profile = [] →
  accessibility_needs profile = None →
  outcome (keywordRanking profile jobs topN used) = inr r →
  job <$> userResults r = JS.slice0 jobs topN
  ∧ Forall (λ c, (jobScore c == 0)%Q) (userResults r).
Proof.
  intros Ht Hn [= <-]. cbn [userResults].
  set (scored := (λ j, {| job := j; jobScore := keywordScore profile j |}) <$> jobs).
  assert (Hall : Forall (λ c, jobScore c = (0 + 0 * 20)%Q) scored).
  { apply Forall_fmap, Forall_forall. intros j _. simpl.
    by apply keywordScore_nothing_to_match. }
  assert (Hs : StronglySorted (Spec.descending jobScore) scored).
  { clear -Hall. induction Hall as [|c l Hc Hl IH]; constructor; [done|].
    eapply Forall_impl; [exact Hl|]. intros c' Hc'. unfold Spec.descending.
    rewrite Hc, Hc'. lra. }
  rewrite (sort_of_sorted jobScore _ Hs). split.
  - rewrite slice0_fmap. f_equal. subst scored.
    rewrite <- list_fmap_compose. apply list_fmap_id.
  - apply Forall_forall. intros c Hc%elem_of_slice0.
    eapply Forall_forall in Hall; [|done]. rewrite Hall. reflexivity.
Qed.

(** X18. When the keyword fallback has nothing to match, a profile
    without a token and without needs, every job scores 0 and the
    single-user ranking returns the jobs in the order of the loaded list,
    cut by [slice(0, topN)]. *)
Theorem keyword_fallback_without_tokens_keeps_input_order
    embedTexts cosineSimilarity supabase userId topNArg profile jobs used r :
  profileQuery supabase userId = {| data := Some profile; error := None |} →
  outcome (loadJobs supabase) = inr (jobs, used) →
  keywordTokens profile = [] →
  accessibility_needs profile = None →
  let call := computeRecommendationsForUser embedTexts cosineSimilarity
                supabase userId topNArg in
  Spec.tookKeywordFallback call →
  outcome call = inr r →
  job <$> userResults r = JS.slice0 jobs (default defaultTopN topNArg)
  ∧ Forall (λ c, (jobScore c == 0)%Q) (userResults r).
Proof.
  intros Hp Hl Ht Hn call Htook Hr. subst call.
  destruct (decide (jobs = [])) as [->|Hj].
  { exfalso. rewrite (computeRecommendationsForUser_no_jobs _ _ _ _ _ _ _ Hp Hl) in Htook.
    destruct Htook as (err & H). apply elem_of_cons in H as [[=]|H].
    by apply loadJobs_no_catch in H. }
  apply (tookKeywordFallback_found _ _ _ _ _ _ _ _ Hp Hl Hj) in Htook.
  rewrite (computeRecommendationsForUser_found _ _ _ _ _ _ _ _ Hp Hl Hj) in Hr.
  cbn [outcome] in Hr. apply tryCatch_inr in Hr as [Hr|(e & _ & Hr)].
  { by rewrite Hr in Htook. }
  by eapply keywordRanking_nothing_to_match.
Qed.

Lemma keyword_fallback_without_tokens_keeps_input_order_witness :
  let supabase :=
    {| profilesQuery := Sample.answer [];
       profileQuery := λ _, Sample.answer
         {| profile_id := "u3"; skills := TFNull; accessibility_needs := None |};
       jobsQuery := Sample.answer [Sample.javaJob; Sample.pythonJob; Sample.javaJob];
       jobPostsQuery := Sample.failed "not asked" |} in
  ∃ r, outcome (computeRecommendationsForUser Sample.embedTextsDown
                  Sample.cosineSimilarity supabase "u3" (Some 2%Z)) = inr r
       ∧ job <$> userResults r = jobRowOfJobs <$> [Sample.javaJob; Sample.pythonJob].
Proof.
  intros supabase. eexists. split; [vm_compute; reflexivity|].
  apply (keyword_fallback_without_tokens_keeps_input_order Sample.embedTextsDown
           Sample.cosineSimilarity supabase "u3" (Some 2%Z) _ _ false _
           eq_refl eq_refl eq_refl eq_refl).
  - exists "embedding service unavailable". vm_compute. do 4 right. left.
  - reflexivity.
Defined.

(** ** Where the rows come from *)

(** X19. The rows the loader hands to the scorers never carry the
    run-time column [accessibility_features]; rows of the jobs table
    carry neither [content] nor [job_metadata], and rows of the posts
    carry no [description].  So the accessibility text of every loaded
    job is made of the flags of [job_metadata] only. *)
Theorem loaded_rows_by_source supabase jobs used j :
  outcome (loadJobs supabase) = inr (jobs, used) →
  j ∈ jobs →
  accessibility_features j = VUndefined
  ∧ (if used then description j = None
     else content j = None ∧ job_metadata j = VUndefined)
  ∧ jobAccessibilityToText j = JS.join " " (Derived.flagNames (Spec.nestedFeatures j)).
Proof.
  intros Hl Hj.
  assert (accessibility_features j = VUndefined
          ∧ (if used then description j = None
             else content j = None ∧ job_metadata j = VUndefined)) as [H1 H2].
  { apply loadJobs_inr in Hl as [(-> & _ & rows & _ & ->)|(-> & _ & ->)];
      apply list_elem_of_fmap in Hj as (row & -> & _); done. }
  repeat (split; [done|]).
  rewrite jobAccessibilityToText_flagNames. unfold Derived.jobFlagNames.
  by rewrite H1, app_nil_r.
Qed.

Lemma loaded_rows_by_source_witness :
  description (jobRowOfPost Sample.pythonPost) = None.
Proof.
  apply (loaded_rows_by_source Sample.postsOnly
           (jobRowOfPost <$> [Sample.javaPost; Sample.pythonPost; Sample.goPost])
           true (jobRowOfPost Sample.pythonPost) eq_refl).
  right. left.
Defined.

(** X20. When the jobs come from the primary table the accessibility
    boost plays no part in a single-user ranking.  A call that did not
    take the keyword fallback scores every returned job with the cosine
    similarity of its embedding alone; a call that took it scores every
    returned job with the number of profile tokens found in the job text
    alone. *)
Theorem primary_source_scores_without_boost
    embedTexts cosineSimilarity supabase userId topNArg profile jobs r :
  data (profileQuery supabase userId) = Some profile →
  outcome (loadJobs supabase) = inr (jobs, false) →
  let call := computeRecommendationsForUser embedTexts cosineSimilarity
                supabase userId topNArg in
  outcome call = inr r →
  (¬ Spec.tookKeywordFallback call
   ∧ Forall (λ c, ∃ profileVecArr jobEmbeddings idx base,
                embedTexts 0%nat [profileText profile] = inr profileVecArr
                ∧ embedTexts 1%nat (jobText <$> jobs) = inr jobEmbeddings
                ∧ jobs !! idx = Some (job c)
                ∧ cosineSimilarity (profileVecArr !! 0%nat) (jobEmbeddings !! idx)
                  = inr base
                ∧ (jobScore c == base)%Q)
            (userResults r))
  ∨ (Spec.tookKeywordFallback call
     ∧ Forall (λ c, job c ∈ jobs
                ∧ (jobScore c
                   == inject_Z (Z.of_nat (Spec.keywordOverlapCount
                                            (keywordTokens profile)
                                            (keywordText (job c)))))%Q)
              (userResults r)).
Proof.
  intros Hd Hl call Hr.
  assert (Hzero : ∀ j needs, j ∈ jobs → computeAccessibilityBoost needs j = 0%Q).
  { intros j needs Hj.
    pose proof Hl as Hl'.
    apply loadJobs_inr in Hl' as [(_ & _ & rows & _ & ->)|([=] & _)].
    apply list_elem_of_fmap in Hj as (row & -> & _). apply boost_of_jobs_row. }
  pose proof (computeRecommendationsForUser_inr _ _ _ _ _ _ Hr) as [He _].
  pose proof (query_eta _ _ _ Hd He) as Hp.
  destruct (decide (jobs = [])) as [->|Hj].
  - left. subst call.
    rewrite (computeRecommendationsForUser_no_jobs _ _ _ _ _ _ _ Hp Hl) in *.
    injection Hr as <-. split; [|constructor].
    intros (err & H). apply elem_of_cons in H as [[=]|H].
    by apply loadJobs_no_catch in H.
  - subst call.
    rewrite (tookKeywordFallback_found _ _ _ _ _ _ _ _ Hp Hl Hj).
    rewrite (computeRecommendationsForUser_found _ _ _ _ _ _ _ _ Hp Hl Hj) in Hr.
    cbn [outcome] in Hr. apply tryCatch_inr in Hr as [Hr|(e & He' & Hr)].
    + left. rewrite Hr. split; [tauto|].
      apply semanticRanking_scores in Hr.
      eapply Forall_impl; [exact Hr|].
      intros c (pvs & jes & idx & base & H0 & H1 & Hjc & Hb & Hs).
      exists pvs, jes, idx, base. repeat (split; [done|]).
      rewrite Hs, Hzero; [lra|]. by eapply list_elem_of_lookup_2.
    + right. rewrite He'. split; [done|].
      assert (Hin : ∀ c, c ∈ userResults r → job c ∈ jobs).
      { injection Hr as <-. cbn [userResults]. intros c Hc%elem_of_slice0.
        rewrite (sort_Permutation jobScore) in Hc.
        by apply list_elem_of_fmap in Hc as (j & -> & Hjc). }
      apply keywordRanking_scores in Hr.
      apply Forall_forall. intros c Hc. split; [by apply Hin|].
      eapply Forall_forall in Hr; [|done]. unfold Spec.keywordScoreOf in Hr.
      rewrite Hr, Hzero by auto. lra.
Qed.

Lemma primary_source_scores_without_boost_witness :
  let jobs := jobRowOfJobs <$> [Sample.javaJob; Sample.pythonJob; Sample.javaJob] in
  let call := computeRecommendationsForUser Sample.embedTextsDown
                Sample.cosineSimilarity Sample.jobsTable "u1" (Some 1%Z) in
  ∃ r, outcome call = inr r
       ∧ Spec.tookKeywordFallback call
       ∧ Forall (λ c, job c ∈ jobs
                  ∧ (jobScore c
                     == inject_Z (Z.of_nat (Spec.keywordOverlapCount
                                              (keywordTokens Sample.user)
                                              (keywordText (job c)))))%Q)
                (userResults r).
Proof.
  intros jobs call. eexists. split; [vm_compute; reflexivity|].
  assert (Spec.tookKeywordFallback call) as Htook.
  { exists "embedding service unavailable". vm_compute. do 4 right. left. }
  split; [exact Htook|].
  destruct (primary_source_scores_without_boost Sample.embedTextsDown
              Sample.cosineSimilarity Sample.jobsTable "u1" (Some 1%Z)
              Sample.user jobs _ eq_refl eq_refl eq_refl) as [[H _]|[_ H]].
  - exfalso. exact (H Htook).
  - exact H.
Defined.

(** ** The keys of a bulk ranking *)

Section BulkKeys.
Variable cosineSimilarity :
  option EmbeddingVector → option EmbeddingVector → Error + Q.

(** The loop over the profiles stores one list per index, under the id
    of the profile; an id that occurs once keeps the list of its
    profile. *)
Lemma foldM_bulkRankProfile profiles jobs pes jes topN l results results' :
  outcome (foldM (bulkRankProfile cosineSimilarity profiles jobs pes jes topN)
                 results l) = inr results' →
  let key := λ pIdx, default "undefined" ((profile_id <$> profiles) !! pIdx) in
  dom results' = dom results ∪ list_to_set (key <$> l)
  ∧ (NoDup (key <$> l) →
     ∀ pIdx, pIdx ∈ l →
       ∃ scores,
         outcome (mapM (bulkScore cosineSimilarity profiles jobs pes jes pIdx)
                       (seq 0 (length jes))) = inr scores
         ∧ results' !! key pIdx
           = Some (JS.slice0 (JS.sort (λ a b, score b - score a)%Q scores) topN))
  ∧ (∀ pid, pid ∉ key <$> l → results' !! pid = results !! pid).
Proof.
  intros H key. revert results H.
  induction l as [|x l IH]; intros results; simpl.
  - intros [= <-]. split; [set_solver|]. split; [|done].
    intros _ pIdx Hp. by apply elem_of_nil in Hp.
  - intros (results1 & Hstep & Hrest)%outcome_bind_inr.
    unfold bulkRankProfile in Hstep.
    apply outcome_bind_inr in Hstep as (scores & Hs & [= <-]).
    fold key in Hrest. destruct (IH _ Hrest) as (Hdom & Hlook & Hkeep).
    split; [|split].
    + rewrite Hdom, dom_insert_L. set_solver.
    + intros [Hx Hnd]%NoDup_cons pIdx [->|Hp]%elem_of_cons.
      * exists scores. split; [done|]. rewrite Hkeep by done.
        apply lookup_insert_eq.
      * by apply Hlook.
    + intros pid Hpid. apply not_elem_of_cons in Hpid as [Hne Hpid].
      rewrite Hkeep by done. by apply lookup_insert_ne.
Qed.

Lemma profile_keys profiles n :
  n = length profiles →
  (λ pIdx, default "undefined" ((profile_id <$> profiles) !! pIdx)) <$> seq 0 n
  = profile_id <$> profiles.
Proof.
  intros ->. apply list_eq. intros i. rewrite !list_lookup_fmap.
  destruct (decide (i < length profiles)) as [Hi|Hi].
  - rewrite (lookup_seq_lt _ _ _ Hi).
    destruct (lookup_lt_is_Some_2 profiles i Hi) as [p Hp].
    simpl. by rewrite list_lookup_fmap, Hp.
  - rewrite lookup_seq_ge by lia.
    by rewrite (proj2 (lookup_ge_None profiles i)) by lia.
Qed.

End BulkKeys.

(** X21. A bulk ranking that returns has one list for every profile and
    for nothing else: when no profile id is the string [__proto__], the
    keys of its result are the ids of the fetched profiles (the
    embedding service returning one vector per text).  With an empty job
    list every list of the result is empty. *)
Theorem bulk_results_keys embedTexts cosineSimilarity supabase topNArg r f :
  Spec.oneVectorPerText embedTexts →
  outcome (fetchProfilesAndJobs supabase) = inr f →
  outcome (computeRecommendationsForAllUsers embedTexts cosineSimilarity
             supabase topNArg) = inr r →
  ("__proto__" ∉ (profile_id <$> profiles f) →
   dom (bulkResults r) = list_to_set (profile_id <$> profiles f))
  ∧ (jobs f = [] → ∀ pid l, bulkResults r !! pid = Some l → l = []).
Proof.
  intros Hone Hf Hr. split.
  - intros _. unfold computeRecommendationsForAllUsers in Hr.
    apply outcome_bind_inr in Hr as (f' & Hf' & Hr).
    assert (f' = f) as -> by congruence.
    apply outcome_bind_inr in Hr as ([pes jes] & [H0 H1]%promiseAll2_embed_inr & Hr).
    apply outcome_bind_inr in Hr as (results & Hr & [= <-]). cbn [bulkResults].
    apply foldM_bulkRankProfile in Hr as (Hdom & _).
    rewrite Hdom, dom_empty_L, (left_id_L ∅ (∪)).
    rewrite profile_keys; [done|].
    apply Hone in H0. by rewrite length_fmap in H0.
  - intros Hj pid l Hl.
    destruct (computeRecommendationsForAllUsers_ranked _ _ _ _ _ Hone Hr)
      as (f' & Hf' & H).
    assert (f' = f) as -> by congruence.
    destruct (H pid l Hl) as (scored & Hs & ->).
    rewrite Hj in Hs. apply fmap_nil_inv in Hs as ->.
    unfold JS.slice0, JS.sort. cbn [foldr]. by rewrite take_nil.
Qed.

Lemma bulk_results_keys_witness :
  ("__proto__" ∉ (profile_id <$> [Sample.user]))
  ∧ ∃ r, outcome (computeRecommendationsForAllUsers Sample.embedTexts
                    Sample.cosineSimilarity Sample.postsOnly None) = inr r
         ∧ dom (bulkResults r) = list_to_set ["u1"].
Proof.
  assert ("__proto__" ∉ (profile_id <$> [Sample.user])) as Hfresh.
  { intros H. apply list_elem_of_singleton in H. discriminate. }
  split; [exact Hfresh|].
  eexists. split; [vm_compute; reflexivity|].
  apply (bulk_results_keys Sample.embedTexts Sample.cosineSimilarity
           Sample.postsOnly None _
           {| profiles := [Sample.user];
              jobs := jobRowOfPost <$> [Sample.javaPost; Sample.pythonPost; Sample.goPost];
              usedPostsFallback := true |}).
  - intros k texts vectors [= <-]. apply length_fmap.
  - reflexivity.
  - reflexivity.
  - exact Hfresh.
Defined.

(** ** The keyword tokens *)

Lemma allChars_app p a b :
  Derived.allChars p (a +:+ b) = Derived.allChars p a && Derived.allChars p b.
Proof.
  induction a as [|c a IH]; [done|]. rewrite string_app_cons. simpl.
  by rewrite IH, andb_assoc.
Qed.

Lemma allChars_weaken (p q : ascii → bool) s :
  (∀ c, p c = true → q c = true) →
  Derived.allChars p s = true → Derived.allChars q s = true.
Proof.
  intros Hpq. induction s as [|c s IH]; [done|]. simpl.
  intros [Hc Hs]%andb_true_iff. by rewrite (Hpq _ Hc), IH.
Qed.

Lemma allChars_toLowerCase s :
  Derived.allChars Derived.isLowerChar (JS.toLowerCase s) = true.
Proof.
  induction s as [|c s IH]; [done|]. simpl. rewrite IH, andb_true_r.
  unfold Derived.isLowerChar. rewrite lowerChar_idemp. apply Ascii.eqb_refl.
Qed.

Lemma allChars_isLowerChar s :
  Derived.allChars Derived.isLowerChar s = true → JS.toLowerCase s = s.
Proof.
  induction s as [|c s IH]; [done|]. simpl.
  intros [Hc Hs]%andb_true_iff. apply Ascii.eqb_eq in Hc. by rewrite Hc, IH.
Qed.

(** The pieces of a split are made of characters of the string that are
    not separators. *)
Lemma splitRunsGo_allChars (p sep : ascii → bool) s cur inRun :
  Derived.allChars p s = true →
  Derived.allChars (λ c, p c && negb (sep c)) cur = true →
  Forall (λ piece, Derived.allChars (λ c, p c && negb (sep c)) piece = true)
         (JS.splitRunsGo sep cur inRun s).
Proof.
  revert cur inRun. induction s as [|c s IH]; intros cur inRun; simpl.
  - intros _ Hcur. by constructor.
  - intros [Hc Hs]%andb_true_iff Hcur.
    destruct (sep c) eqn:Esep.
    + destruct inRun; [by apply IH|]. constructor; [done | by apply IH].
    + apply IH; [done|]. rewrite allChars_app, Hcur. simpl. by rewrite Hc, Esep.
Qed.

(** X22. The keyword fallback compares lower case with lower case: every
    profile token is a non-empty lower-case string without white space,
    comma or semicolon, and the job text it is searched in is lower
    case. *)
Theorem keyword_tokens_are_lowercase_words profile j :
  (∀ token, token ∈ keywordTokens profile →
            token ≠ ""
            ∧ JS.toLowerCase token = token
            ∧ Derived.allChars (λ c, negb (Derived.isTokenSeparator c)) token = true)
  ∧ JS.toLowerCase (keywordText j) = keywordText j.
Proof.
  split.
  - intros token Ht. unfold keywordTokens in Ht.
    apply list_elem_of_In, filter_In in Ht as [Ht Hne].
    split; [by destruct token|].
    unfold JS.splitRuns in Ht.
    match type of Ht with
    | In _ (JS.splitRunsGo _ _ _ (JS.toLowerCase ?s)) =>
        pose proof (splitRunsGo_allChars Derived.isLowerChar Derived.isTokenSeparator
                      (JS.toLowerCase s) "" false (allChars_toLowerCase s) eq_refl) as HF
    end.
    rewrite Forall_forall in HF. apply list_elem_of_In in Ht.
    specialize (HF _ Ht). clear Ht. split.
    + apply allChars_isLowerChar. revert HF. apply allChars_weaken.
      by intros c [Hc _]%andb_true_iff.
    + revert HF. apply allChars_weaken. by intros c [_ Hc]%andb_true_iff.
  - unfold keywordText. apply toLowerCase_idemp.
Qed.

Lemma keyword_tokens_are_lowercase_words_witness :
  JS.toLowerCase "accessibility" = "accessibility".
Proof.
  apply (proj1 (keyword_tokens_are_lowercase_words
                  {| profile_id := "u"; skills := TFString "Python; ACCESSIBILITY";
                     accessibility_needs := None |}
                  (jobRowOfPost Sample.goPost)) "accessibility").
  right. left.
Defined.

(** ** The two entry points agree *)

Lemma mapM_inr_2 {A B} (f : A → M B) l k :
  Forall2 (λ x y, outcome (f x) = inr y) l k → outcome (mapM f l) = inr k.
Proof.
  induction 1 as [|x y l k Hxy _ IH]; [done|]. simpl.
  apply outcome_bind_inr. exists y. split; [done|].
  apply outcome_bind_inr. exists k. done.
Qed.

Lemma insertBy_fmap {A B} (keyA : A → Q) (keyB : B → Q) (f : A → B) x l :
  (∀ a, keyB (f a) = keyA a) →
  JS.insertBy (λ a b, keyB b - keyB a)%Q (f x) (f <$> l)
  = f <$> JS.insertBy (λ a b, keyA b - keyA a)%Q x l.
Proof.
  intros Hkey. induction l as [|y l IH]; [done|].
  rewrite fmap_cons. cbn [JS.insertBy]. rewrite !Hkey.
  destruct (Qle_bool _ 0); [done|]. rewrite fmap_cons. by f_equal.
Qed.

Lemma sort_fmap {A B} (keyA : A → Q) (keyB : B → Q) (f : A → B) l :
  (∀ a, keyB (f a) = keyA a) →
  JS.sort (λ a b, keyB b - keyB a)%Q (f <$> l)
  = f <$> JS.sort (λ a b, keyA b - keyA a)%Q l.
Proof.
  intros Hkey. induction l as [|x l IH]; [done|].
  unfold JS.sort in *. rewrite fmap_cons. cbn [foldr]. rewrite IH.
  by apply insertBy_fmap.
Qed.

Section Agreement.
Variable embedTexts : nat → list string → Error + list EmbeddingVector.
Variable cosineSimilarity :
  option EmbeddingVector → option EmbeddingVector → Error + Q.
Variable embed : string → EmbeddingVector.
Hypothesis embedTexts_embed : ∀ k texts, embedTexts k texts = inr (embed <$> texts).

(** The scores the bulk loop pushes for a profile are those of the [try]
    block of the single-user ranking, read by job id. *)
Lemma bulk_scores_are_semantic_scores
    (profiles : list UserProfile) (jobs : list JobRow) (pIdx : nat)
    (p : UserProfile) (scores : list ScoredCandidate) :
  profiles !! pIdx = Some p →
  outcome (mapM (bulkScore cosineSimilarity profiles jobs
                   (embed <$> (profileText <$> profiles : list string) : list EmbeddingVector)
                   (embed <$> (jobText <$> jobs : list string) : list EmbeddingVector) pIdx)
                (seq 0 (length (embed <$> (jobText <$> jobs : list string) : list EmbeddingVector)))) = inr scores →
  ∃ scored : list ScoredJob,
    outcome (mapM (semanticScore cosineSimilarity p
                     ([embed (profileText p)] !! 0%nat)
                     (embed <$> (jobText <$> jobs : list string) : list EmbeddingVector))
                  (imap pair jobs)) = inr scored
    ∧ scores = Derived.byJobId <$> scored.
Proof.
  intros Hp Hs%mapM_inr. rewrite !length_fmap in Hs.
  assert (Hpv : (embed <$> (profileText <$> profiles : list string) : list EmbeddingVector) !! pIdx
                = [embed (profileText p)] !! 0%nat).
  { by rewrite !list_lookup_fmap, Hp. }
  assert (Hlen : length scores = length jobs).
  { apply Forall2_length in Hs. by rewrite length_seq in Hs. }
  exists (imap (λ idx j, {| job := j;
                            jobScore := default 0%Q (score <$> scores !! idx) |}) jobs).
  split.
  - apply mapM_inr_2, Forall2_same_length_lookup. split; [by rewrite !length_imap|].
    intros i [idx j] c Hi Hc. rewrite list_lookup_imap in Hi.
    rewrite list_lookup_imap in Hc.
    destruct (jobs !! i) as [j'|] eqn:Hj; [|done].
    injection Hi as <- <-. injection Hc as <-.
    destruct (lookup_lt_is_Some_2 scores i) as [c Hc].
    { rewrite Hlen. by eapply lookup_lt_Some. }
    destruct (Forall2_lookup_r _ _ _ _ _ Hs Hc) as (jIdx & Hseq & Hb).
    apply lookup_seq in Hseq as [-> _]. simpl in Hb.
    apply bulkScore_inr in Hb as (p' & base & Hp' & Hbase & ->).
    assert (p' = p) as -> by congruence.
    apply semanticScore_inr. exists base. rewrite <- Hpv. split; [done|].
    rewrite Hc, Hj. done.
  - apply list_eq. intros i. rewrite list_lookup_fmap, list_lookup_imap.
    destruct (scores !! i) as [c|] eqn:Hc.
    + destruct (Forall2_lookup_r _ _ _ _ _ Hs Hc) as (jIdx & Hseq & Hb).
      apply lookup_seq in Hseq as [-> Hlt]. simpl in Hb.
      apply bulkScore_inr in Hb as (p' & base & _ & _ & ->).
      destruct (lookup_lt_is_Some_2 jobs i Hlt) as [j Hj].
      rewrite Hj, list_lookup_fmap, Hj. done.
    + apply lookup_ge_None in Hc.
      by rewrite (proj2 (lookup_ge_None jobs i)) by lia.
Qed.

End Agreement.

(** X23. The two entry points agree.  Let the embedding service answer
    text by text, and let a bulk ranking return.  For a fetched profile
    whose id occurs once and which the profile query finds under its id,
    the single-user ranking returns on the semantic path, and the list
    the bulk ranking holds for the profile is the single-user list, each
    entry read as the id of its job with the same score. *)
Theorem bulk_and_single_user_rankings_agree
    embedTexts cosineSimilarity embed supabase topNArg f pIdx p rb :
  (∀ k texts, embedTexts k texts = inr (embed <$> texts)) →
  outcome (fetchProfilesAndJobs supabase) = inr f →
  NoDup (profile_id <$> profiles f) →
  profiles f !! pIdx = Some p →
  profileQuery supabase (profile_id p) = {| data := Some p; error := None |} →
  outcome (computeRecommendationsForAllUsers embedTexts cosineSimilarity
             supabase topNArg) = inr rb →
  let call := computeRecommendationsForUser embedTexts cosineSimilarity
                supabase (profile_id p) topNArg in
  ∃ ru, outcome call = inr ru
        ∧ ¬ Spec.tookKeywordFallback call
        ∧ bulkResults rb !! profile_id p = Some (Derived.byJobId <$> userResults ru).
Proof.
  intros Hembed Hf Hnd Hp Hq Hrb call.
  pose proof (fetchProfilesAndJobs_inr _ _ Hf) as Hl.
  unfold computeRecommendationsForAllUsers in Hrb.
  apply outcome_bind_inr in Hrb as (f' & Hf' & Hrb).
  assert (f' = f) as -> by congruence.
  apply outcome_bind_inr in Hrb as ([pes jes] & [H0 H1]%promiseAll2_embed_inr & Hrb).
  simpl in H0, H1. rewrite Hembed in H0, H1.
  injection H0 as <-. injection H1 as <-.
  apply outcome_bind_inr in Hrb as (results & Hrb & [= <-]). cbn [bulkResults].
  apply foldM_bulkRankProfile in Hrb as (_ & Hlook & _).
  rewrite profile_keys in Hlook by (by rewrite !length_fmap).
  destruct (Hlook Hnd pIdx) as (scores & Hs & Hres).
  { apply elem_of_seq. rewrite !length_fmap. apply lookup_lt_Some in Hp. lia. }
  rewrite list_lookup_fmap, Hp in Hres.
  change (default "undefined" (profile_id <$> Some p)) with (profile_id p) in Hres.
  destruct (bulk_scores_are_semantic_scores cosineSimilarity embed
              _ _ _ _ _ Hp Hs) as (scored & Hscored & ->).
  rewrite (sort_fmap jobScore score Derived.byJobId) in Hres by done.
  rewrite <- (slice0_fmap Derived.byJobId) in Hres.
  destruct (decide (jobs f = [])) as [Hj|Hj].
  - subst call. rewrite Hj in Hl, Hscored.
    rewrite (computeRecommendationsForUser_no_jobs _ _ _ _ _ _ _ Hq Hl).
    eexists. split; [done|]. split.
    + intros (err & H). apply elem_of_cons in H as [[=]|H].
      by apply loadJobs_no_catch in H.
    + injection Hscored as <-. rewrite Hres. cbn [userResults].
      unfold JS.slice0, JS.sort. cbn [foldr]. by rewrite take_nil.
  - assert (Hsem : outcome (semanticRanking embedTexts cosineSimilarity p (jobs f)
                              (default defaultTopN topNArg) (usedPostsFallback f))
                   = inr {| userResults :=
                              JS.slice0 (JS.sort (λ a b, jobScore b - jobScore a)%Q scored)
                                        (default defaultTopN topNArg);
                            userUsedPostsFallback := usedPostsFallback f |}).
    { apply semanticRanking_inr. eexists _, _, scored.
      split; [apply Hembed|]. split; [apply Hembed|]. split; [exact Hscored | done]. }
    subst call. eexists. split; [|split].
    + rewrite (computeRecommendationsForUser_found _ _ _ _ _ _ _ _ Hq Hl Hj).
      cbn [outcome]. apply tryCatch_inr. left. exact Hsem.
    + rewrite (tookKeywordFallback_found _ _ _ _ _ _ _ _ Hq Hl Hj), Hsem. tauto.
    + exact Hres.
Qed.

Lemma bulk_and_single_user_rankings_agree_witness :
  ∃ rb ru,
    outcome (computeRecommendationsForAllUsers Sample.embedTexts
               Sample.cosineSimilarity Sample.postsOnly None) = inr rb
    ∧ outcome (computeRecommendationsForUser Sample.embedTexts
                 Sample.cosineSimilarity Sample.postsOnly "u1" None) = inr ru
    ∧ bulkResults rb !! "u1" = Some (Derived.byJobId <$> userResults ru).
Proof.
  eexists.
  edestruct (bulk_and_single_user_rankings_agree Sample.embedTexts
               Sample.cosineSimilarity
               (λ t, if JS.includes t "python" then [1; 0] else [0; 1])%Q
               Sample.postsOnly None
               {| profiles := [Sample.user];
                  jobs := jobRowOfPost <$> [Sample.javaPost; Sample.pythonPost; Sample.goPost];
                  usedPostsFallback := true |}
               0%nat Sample.user) as (ru & Hru & _ & Hres).
  - reflexivity.
  - reflexivity.
  - repeat constructor. set_solver.
  - reflexivity.
  - reflexivity.
  - vm_compute. reflexivity.
  - exists ru. split; [reflexivity|]. split; [exact Hru | exact Hres].
Defined.

(** ** From lists of skills and needs to keyword tokens *)


Lemma filter_truthy_fmap_toLowerCase l :
  List.filter JS.truthyStr (JS.toLowerCase <$> l)
  = JS.toLowerCase <$> List.filter JS.truthyStr l.
Proof.
  induction l as [|x l IH]; [done|]. rewrite fmap_cons. simpl.
  rewrite truthyStr_toLowerCase. destruct (JS.truthyStr x); [|done].
  rewrite fmap_cons. by f_equal.
Qed.

Lemma allChars_separator_toLowerCase s :
  Derived.allChars (λ c, negb (Derived.isTokenSeparator c)) (JS.toLowerCase s)
  = Derived.allChars (λ c, negb (Derived.isTokenSeparator c)) s.
Proof.
  induction s as [|c s IH]; [done|]. simpl. rewrite IH. f_equal. f_equal.
  destruct c as [[] [] [] [] [] [] [] []]; reflexivity.
Qed.

Lemma words_of_list l :
  Forall (λ s, Derived.allChars (λ c, negb (Derived.isTokenSeparator c)) s = true) l →
  Forall (λ name, JS.truthyStr name
                  && Derived.allChars (λ c, negb (Derived.isTokenSeparator c)) name = true)
         (JS.toLowerCase <$> List.filter JS.truthyStr l).
Proof.
  intros H. apply Forall_fmap, Forall_forall. intros s Hs. simpl.
  apply list_elem_of_In, filter_In in Hs as [Hs Hne].
  rewrite truthyStr_toLowerCase, Hne, allChars_separator_toLowerCase. simpl.
  rewrite Forall_forall in H. apply H. by apply list_elem_of_In.
Qed.

(** X24. Lists of skills and needs come back as keyword tokens, one
    token per entry: when no entry holds white space, a comma or a
    semicolon, the tokens of the keyword fallback are the lower-cased
    non-empty skills followed by the lower-cased non-empty needs. *)
Theorem keyword_tokens_of_lists profile skillList needList :
  skills profile = TFArray skillList →
  accessibility_needs profile = Some needList →
  Forall (λ s, Derived.allChars (λ c, negb (Derived.isTokenSeparator c)) s = true)
         (skillList ++ needList) →
  keywordTokens profile
  = JS.toLowerCase <$> (List.filter JS.truthyStr skillList
                        ++ List.filter JS.truthyStr needList).
Proof.
  intros Hs Hn [H1 H2]%Forall_app. unfold keywordTokens, JS.splitRuns.
  rewrite Hs, Hn. cbn [skillsToText accessibilityNeedsToText needsField].
  rewrite !toLowerCase_app, !toLowerCase_join.
  change (JS.toLowerCase " ") with " ".
  rewrite fmap_app.
  apply (split_two_joins Derived.isTokenSeparator eq_refl); by apply words_of_list.
Qed.

Lemma keyword_tokens_of_lists_witness :
  keywordTokens {| profile_id := "u4"; skills := TFArray ["Go"; ""; "Rust"];
                   accessibility_needs := Some ["Hearing"] |}
  = ["go"; "rust"; "hearing"].
Proof.
  apply (keyword_tokens_of_lists
           {| profile_id := "u4"; skills := TFArray ["Go"; ""; "Rust"];
              accessibility_needs := Some ["Hearing"] |}
           ["Go"; ""; "Rust"] ["Hearing"] eq_refl eq_refl).
  repeat constructor.
Defined.
